(** * Orbital-optimized MP2 (Tutorials/10_Orbital_Optimized_Methods/10a)

    A shallow embedding of the notebook's numerical core: the integral
    transform [ao_to_mo] / [ao_to_mo_tei] and the body of the OMP2 loop.

    Arrays.  A NumPy array is modelled by its index function together with
    the shape the code gives it ([nso], [nocc], [nvirt = nso - nocc]); every
    statement about an array quantifies over the indices inside that shape.
    An [np.einsum] call is the finite sum its subscript string denotes.

    Numbers.  float64 arithmetic is idealised as exact rational arithmetic
    ([Qc]): rounding, overflow and signed zeros are not modelled.  Division
    by zero is modelled apart (see [outcome]): NumPy returns inf or nan
    there, it does not raise.

    Library calls.  [scipy.linalg.expm] is a parameter of the loop; its
    mathematical content, the exponential series, is treated over the reals
    in the last part of the file.

    Contents: arrays and the integral transform; the loop and its
    variables; the specified formulas; inputs for running the model; then
    the proofs, in the same order, and the rotation operator. *)

From Stdlib Require Import Reals Qreals Lra.
From Stdlib Require Import QArith Qcanon Qcabs.
From Stdlib Require Import Arith Lia List Bool.
From Stdlib Require Import FunctionalExtensionality.
From Stdlib Require String.
Import ListNotations.

Local Open Scope Qc_scope.

(** ** Arrays as index functions *)

Definition vector := nat -> Qc.
Definition matrix := nat -> nat -> Qc.
Definition tensor4 := nat -> nat -> nat -> nat -> Qc.

(** [sum_lt n f] is the sum of [f i] over [0 <= i < n]: one summed einsum
    subscript of extent [n]. *)
Fixpoint sum_lt (n : nat) (f : nat -> Qc) : Qc :=
  match n with
  | O => 0
  | S k => sum_lt k f + f k
  end.

(** [all_lt n p]: [p i] holds for every [i < n]. *)
Fixpoint all_lt (n : nat) (p : nat -> bool) : bool :=
  match n with
  | O => true
  | S k => all_lt k p && p k
  end.

Definition Qc_eqb (x y : Qc) : bool := Qeq_bool x y.

Definition Qc_ltb (x y : Qc) : bool :=
  match (x ?= y) with Lt => true | _ => false end.

(** np.zeros, np.identity, .T of a matrix *)
Definition zeros1 : vector := fun _ => 0.
Definition zeros2 : matrix := fun _ _ => 0.
Definition zeros4 : tensor4 := fun _ _ _ _ => 0.
Definition identity : matrix := fun p q => if Nat.eqb p q then 1 else 0.
Definition transpose (A : matrix) : matrix := fun p q => A q p.

(** An array is a stored table: [store1 n A], [store2 n m A] and
    [store4 n1 n2 n3 n4 A] hold the entries of [A] inside the given shape,
    computed once, and nothing (0 here) outside it. *)
Definition table (A : Type) (n : nat) (g : nat -> A) : list A :=
  map g (seq 0 n).

Definition store1 (n : nat) (A : vector) : vector :=
  let cells := table Qc n A in
  fun p => nth p cells 0.

Definition store2 (n m : nat) (A : matrix) : matrix :=
  let rows := table vector n (fun p => store1 m (A p)) in
  fun p => nth p rows zeros1.

Definition store4 (n1 n2 n3 n4 : nat) (A : tensor4) : tensor4 :=
  let blocks :=
    table (nat -> matrix) n1 (fun p =>
      let rows := table matrix n2 (fun q => store2 n3 n4 (A p q)) in
      fun q => nth q rows zeros2) in
  fun p => nth p blocks (fun _ => zeros2).

(** Equality of two arrays on a shape. *)
Definition eq_on2 (n m : nat) (A B : matrix) : Prop :=
  forall p q, (p < n)%nat -> (q < m)%nat -> A p q = B p q.

Definition eq_on4 (n1 n2 n3 n4 : nat) (A B : tensor4) : Prop :=
  forall p q r s, (p < n1)%nat -> (q < n2)%nat -> (r < n3)%nat -> (s < n4)%nat ->
    A p q r s = B p q r s.

(** Antisymmetry of a four-index array of shape (n, n, m, m) under exchange
    of its first two and of its last two indices. *)
Definition antisymmetric4 (n m : nat) (g : tensor4) : Prop :=
  forall p q r s, (p < n)%nat -> (q < n)%nat -> (r < m)%nat -> (s < m)%nat ->
    g p q r s = - g q p r s /\ g p q r s = - g p q s r.

Definition symmetric2 (n : nat) (A : matrix) : Prop :=
  forall p q, (p < n)%nat -> (q < n)%nat -> A p q = A q p.

(** ** AO to MO transformation functions *)

(** [ao_to_mo hao C]:
    np.einsum('pQ, pP -> PQ', np.einsum('pq, qQ -> pQ', hao, C), C) *)
Definition ao_to_mo (n : nat) (hao C : matrix) : matrix :=
  let h1 : matrix := fun p Q => sum_lt n (fun q => hao p q * C q Q) in
  fun P Q => sum_lt n (fun p => h1 p Q * C p P).

(** [ao_to_mo_tei gao C]: the four nested einsum calls, innermost first. *)
Definition ao_to_mo_tei (n : nat) (gao : tensor4) (C : matrix) : tensor4 :=
  let g1 : tensor4 := (* 'pqrs, sS -> pqrS' *)
    fun p q r S => sum_lt n (fun s => gao p q r s * C s S) in
  let g2 : tensor4 := (* 'pqrS, rR -> pqRS' *)
    fun p q R S => sum_lt n (fun r => g1 p q r S * C r R) in
  let g3 : tensor4 := (* 'pqRS, qQ -> pQRS' *)
    fun p Q R S => sum_lt n (fun q => g2 p q R S * C q Q) in
  (* 'pQRS, pP -> PQRS' *)
  fun P Q R S => sum_lt n (fun p => g3 p Q R S * C p P).

(** ** Outcome of a NumPy computation

    [Finite a]: every entry of the result is a finite number, and [a] holds
    them.  [NonFinite]: a division met a zero denominator, so that the result
    holds an inf or a nan (NumPy only emits a RuntimeWarning and goes on; the
    model does not follow the values any further).  [Raised msg]: a Python
    exception was raised.  No statement of the notebook's loop raises one. *)
Inductive outcome (A : Type) : Type :=
| Finite (a : A)
| NonFinite
| Raised (msg : String.string).

Arguments Finite {A} a.
Arguments NonFinite {A}.
Arguments Raised {A} msg.

Definition bind {A B : Type} (m : outcome A) (k : A -> outcome B) : outcome B :=
  match m with
  | Finite a => k a
  | NonFinite => NonFinite
  | Raised msg => Raised msg
  end.

Notation "x <- m ;; k" := (bind m (fun x => k))
  (at level 61, m at next level, right associativity).

(** Element-wise true division [T / D] of arrays of one shape. *)
Definition nonzero2 (n1 n2 : nat) (D : matrix) : bool :=
  all_lt n1 (fun a => all_lt n2 (fun i => negb (Qc_eqb (D a i) 0))).

Definition nonzero4 (n1 n2 n3 n4 : nat) (D : tensor4) : bool :=
  all_lt n1 (fun a => all_lt n2 (fun b =>
  all_lt n3 (fun i => all_lt n4 (fun j => negb (Qc_eqb (D a b i j) 0))))).

Definition divide2 (n1 n2 : nat) (T D : matrix) : outcome matrix :=
  if nonzero2 n1 n2 D
  then Finite (store2 n1 n2 (fun a i => T a i / D a i))
  else NonFinite.

Definition divide4 (n1 n2 n3 n4 : nat) (T D : tensor4) : outcome tensor4 :=
  if nonzero4 n1 n2 n3 n4 D
  then Finite (store4 n1 n2 n3 n4 (fun a b i j => T a b i j / D a b i j))
  else NonFinite.

Definition half : Qc := 1 / (1 + 1).
Definition quarter : Qc := half * half.

(** ** The OMP2 loop *)

(** The variables of the notebook that the loop reads or assigns.  The ones
    first assigned inside the loop body are unbound in Python before the
    first iteration; the body never reads them before assigning them, and
    the initial environment holds zeros there. *)
Record env : Type := mkEnv {
  C : matrix;
  hmo : matrix;
  gmo : tensor4;
  t_amp : tensor4;
  E_OMP2_old : Qc;
  opdm_corr : matrix;
  opdm_ref : matrix;
  tpdm_corr : tensor4;
  X : matrix;
  f : matrix;
  fprime : matrix;
  eps : vector;
  opdm : matrix;
  tpdm : tensor4;
  F : matrix;
  U : matrix;
  E_OMP2 : Qc
}.

(** How the [for iteration in range(MAXITER)] loop was left. *)
Inductive loop_exit : Type := Break | Exhausted.

(** A run of the loop: the environment at the convergence test of every
    executed iteration, in order; the environment after the loop; and the
    way the loop was left (control flow, not a Python variable). *)
Record run : Type := mkRun {
  iterations : list env;
  final : env;
  exit : loop_exit
}.

Section OMP2.

(** Sizes, integrals in the spin-orbital basis, nuclear repulsion energy. *)
Variable nso nocc : nat.
Variable hao : matrix.
Variable gao : tensor4.
Variable E_nuc : Qc.
(** Energy convergence criterion. *)
Variable E_conv : Qc.
(** [scipy.linalg.expm], applied to an [nso] x [nso] array. *)
Variable expm : nat -> matrix -> matrix.

Definition nvirt : nat := (nso - nocc)%nat.

(** Assignments to blocks, with o = slice(None, nocc), v = slice(nocc, None). *)
Definition set_oo (A M : matrix) : matrix :=
  fun p q => if (p <? nocc)%nat && (q <? nocc)%nat then M p q else A p q.

Definition set_vv (A M : matrix) : matrix :=
  fun p q => if (nocc <=? p)%nat && (nocc <=? q)%nat
             then M (p - nocc)%nat (q - nocc)%nat else A p q.

Definition set_vo (A M : matrix) : matrix :=
  fun p q => if (nocc <=? p)%nat && (q <? nocc)%nat
             then M (p - nocc)%nat q else A p q.

Definition set_vvoo (T M : tensor4) : tensor4 :=
  fun p q r s =>
    if (nocc <=? p)%nat && (nocc <=? q)%nat && (r <? nocc)%nat && (s <? nocc)%nat
    then M (p - nocc)%nat (q - nocc)%nat r s else T p q r s.

Definition set_oovv (T M : tensor4) : tensor4 :=
  fun p q r s =>
    if (p <? nocc)%nat && (q <? nocc)%nat && (nocc <=? r)%nat && (nocc <=? s)%nat
    then M p q (r - nocc)%nat (s - nocc)%nat else T p q r s.

(** [t_amp.T]: all four axes reversed. *)
Definition T4 (t : tensor4) : tensor4 := fun i j a b => t b a j i.

(** f = hmo + np.einsum('piqi -> pq', gmo[:, o, :, o]) *)
Definition build_f (hmo0 : matrix) (gmo0 : tensor4) : matrix :=
  fun p q => hmo0 p q + sum_lt nocc (fun i => gmo0 p i q i).

(** fprime = f.copy(); np.fill_diagonal(fprime, 0) *)
Definition build_fprime (f0 : matrix) : matrix :=
  fun p q => if Nat.eqb p q then 0 else f0 p q.

(** eps = f.diagonal() *)
Definition diagonal (f0 : matrix) : vector := fun p => f0 p p.

(** t1, t2, t3 and their combination, before the division. *)
Definition t1 (gmo0 : tensor4) : tensor4 :=
  fun a b i j => gmo0 (nocc + a)%nat (nocc + b)%nat i j.

Definition t2 (fprime0 : matrix) (t : tensor4) : tensor4 :=
  fun a b i j =>
    sum_lt nvirt (fun c => fprime0 (nocc + a)%nat (nocc + c)%nat * t c b i j).

Definition t3 (fprime0 : matrix) (t : tensor4) : tensor4 :=
  fun a b i j => sum_lt nocc (fun k => fprime0 k i * t a b k j).

Definition t_amp_numerator (fprime0 : matrix) (gmo0 t : tensor4) : tensor4 :=
  fun a b i j =>
    t1 gmo0 a b i j + t2 fprime0 t a b i j - t2 fprime0 t b a i j
    - t3 fprime0 t a b i j + t3 fprime0 t a b j i.

(** - eps[v, x, x, x] - eps[x, v, x, x] + eps[x, x, o, x] + eps[x, x, x, o] *)
Definition t_amp_denominator (eps0 : vector) : tensor4 :=
  fun a b i j =>
    - eps0 (nocc + a)%nat - eps0 (nocc + b)%nat + eps0 i + eps0 j.

(** The amplitude update: the combination, then [t_amp /= ...]. *)
Definition update_t_amp (fprime0 : matrix) (gmo0 : tensor4) (eps0 : vector)
    (t : tensor4) : outcome tensor4 :=
  divide4 nvirt nvirt nocc nocc
    (t_amp_numerator fprime0 gmo0 t) (t_amp_denominator eps0).

(** (1/2)*np.einsum('ijac,bcij -> ba', t_amp.T, t_amp) *)
Definition opdm_corr_vv (t : tensor4) : matrix :=
  fun b a => half * sum_lt nocc (fun i => sum_lt nocc (fun j =>
    sum_lt nvirt (fun c => T4 t i j a c * t b c i j))).

(** -(1/2)*np.einsum('jkab,abik -> ji', t_amp.T, t_amp) *)
Definition opdm_corr_oo (t : tensor4) : matrix :=
  fun j i => - half * sum_lt nocc (fun k => sum_lt nvirt (fun a =>
    sum_lt nvirt (fun b => T4 t j k a b * t a b i k))).

Definition build_opdm_corr (opdm_corr0 : matrix) (t : tensor4) : matrix :=
  set_oo (set_vv opdm_corr0 (opdm_corr_vv t)) (opdm_corr_oo t).

Definition add2 (A B : matrix) : matrix := fun p q => A p q + B p q.

Definition build_tpdm_corr (tpdm_corr0 t : tensor4) : tensor4 :=
  set_oovv (set_vvoo tpdm_corr0 t) (T4 t).

(** np.einsum('rp,sq -> rspq', A, B) *)
Definition outer (A B : matrix) : tensor4 := fun r s p q => A r p * B s q.

Definition build_tpdm (tpdm_corr0 : tensor4) (opdm_corr0 opdm_ref0 : matrix)
    : tensor4 :=
  let tpdm2 := outer opdm_corr0 opdm_ref0 in
  let tpdm3 := outer opdm_ref0 opdm_ref0 in
  fun p q r s =>
    tpdm_corr0 p q r s
    + tpdm2 p q r s - tpdm2 q p r s
    - tpdm2 p q s r + tpdm2 q p s r
    + tpdm3 p q r s - tpdm3 q p r s.

(** F = np.einsum('pr,rq->pq', hmo, opdm)
        + (1/2) * np.einsum('prst,stqr -> pq', gmo, tpdm) *)
Definition build_F (hmo0 : matrix) (gmo0 : tensor4) (opdm0 : matrix)
    (tpdm0 : tensor4) : matrix :=
  fun p q =>
    sum_lt nso (fun r => hmo0 p r * opdm0 r q)
    + half * sum_lt nso (fun r => sum_lt nso (fun s => sum_lt nso (fun t =>
        gmo0 p r s t * tpdm0 s t q r))).

(** (F - F.T)[v, o] *)
Definition gradient (F0 : matrix) : matrix :=
  fun a i => F0 (nocc + a)%nat i - transpose F0 (nocc + a)%nat i.

(** - eps[v, x] + eps[x, o] *)
Definition X_denominator (eps0 : vector) : matrix :=
  fun a i => - eps0 (nocc + a)%nat + eps0 i.

(** X[v, o] = ((F - F.T)[v, o])/(- eps[v, x] + eps[x, o]) *)
Definition update_X (X0 F0 : matrix) (eps0 : vector) : outcome matrix :=
  Y <- divide2 nvirt nocc (gradient F0) (X_denominator eps0) ;;
  Finite (store2 nso nso (set_vo X0 Y)).

(** X - X.T *)
Definition generator (X0 : matrix) : matrix :=
  fun p q => X0 p q - transpose X0 p q.

(** C.dot(U) *)
Definition dot (A B : matrix) : matrix :=
  fun p q => sum_lt nso (fun r => A p r * B r q).

(** E_nuc + np.einsum('pq,qp ->', hmo, opdm)
          + (1/4)*np.einsum('pqrs,rspq ->', gmo, tpdm) *)
Definition energy (hmo0 : matrix) (gmo0 : tensor4) (opdm0 : matrix)
    (tpdm0 : tensor4) : Qc :=
  E_nuc
  + sum_lt nso (fun p => sum_lt nso (fun q => hmo0 p q * opdm0 q p))
  + quarter * sum_lt nso (fun p => sum_lt nso (fun q => sum_lt nso (fun r =>
      sum_lt nso (fun s => gmo0 p q r s * tpdm0 r s p q)))).

(** The variables before the loop, for the coefficients [C0]. *)
Definition initial_env (C0 : matrix) : env :=
  {| C := C0;
     hmo := store2 nso nso (ao_to_mo nso hao C0);
     gmo := store4 nso nso nso nso (ao_to_mo_tei nso gao C0);
     t_amp := zeros4;
     E_OMP2_old := 0;
     opdm_corr := zeros2;
     opdm_ref := store2 nso nso (set_oo zeros2 identity);
     tpdm_corr := zeros4;
     X := zeros2;
     f := zeros2; fprime := zeros2; eps := zeros1; opdm := zeros2;
     tpdm := zeros4; F := zeros2; U := zeros2; E_OMP2 := 0 |}.

(** The Fock matrix and the orbital energies an iteration starts with. *)
Definition fock (e : env) : matrix :=
  store2 nso nso (build_f (hmo e) (gmo e)).

Definition orbital_energies (e : env) : vector :=
  store1 nso (diagonal (fock e)).

(** One pass through the loop body, up to the convergence test. *)
Definition omp2_iteration (e : env) : outcome env :=
  let f1 := fock e in
  let fprime1 := store2 nso nso (build_fprime f1) in
  let eps1 := orbital_energies e in
  t_amp1 <- update_t_amp fprime1 (gmo e) eps1 (t_amp e) ;;
  let opdm_corr1 := store2 nso nso (build_opdm_corr (opdm_corr e) t_amp1) in
  let opdm1 := store2 nso nso (add2 opdm_corr1 (opdm_ref e)) in
  let tpdm_corr1 :=
    store4 nso nso nso nso (build_tpdm_corr (tpdm_corr e) t_amp1) in
  let tpdm1 :=
    store4 nso nso nso nso (build_tpdm tpdm_corr1 opdm_corr1 (opdm_ref e)) in
  let F1 := store2 nso nso (build_F (hmo e) (gmo e) opdm1 tpdm1) in
  X1 <- update_X (X e) F1 eps1 ;;
  let U1 := store2 nso nso (expm nso (generator X1)) in
  let C1 := store2 nso nso (dot (C e) U1) in
  let hmo1 := store2 nso nso (ao_to_mo nso hao C1) in
  let gmo1 := store4 nso nso nso nso (ao_to_mo_tei nso gao C1) in
  Finite {| C := C1; hmo := hmo1; gmo := gmo1; t_amp := t_amp1;
            E_OMP2_old := E_OMP2_old e;
            opdm_corr := opdm_corr1; opdm_ref := opdm_ref e;
            tpdm_corr := tpdm_corr1; X := X1;
            f := f1; fprime := fprime1; eps := eps1; opdm := opdm1;
            tpdm := tpdm1; F := F1; U := U1;
            E_OMP2 := energy hmo1 gmo1 opdm1 tpdm1 |}.

(** abs(E_OMP2-E_OMP2_old) < E_conv *)
Definition converged (e : env) : bool :=
  Qc_ltb (Qcabs (E_OMP2 e - E_OMP2_old e)) E_conv.

(** E_OMP2_old = E_OMP2 *)
Definition update_old (e : env) : env :=
  {| C := C e; hmo := hmo e; gmo := gmo e; t_amp := t_amp e;
     E_OMP2_old := E_OMP2 e;
     opdm_corr := opdm_corr e; opdm_ref := opdm_ref e;
     tpdm_corr := tpdm_corr e; X := X e;
     f := f e; fprime := fprime e; eps := eps e; opdm := opdm e;
     tpdm := tpdm e; F := F e; U := U e; E_OMP2 := E_OMP2 e |}.

(** for iteration in range(MAXITER): body; if converged: break; update.
    A run in which a division met a zero denominator is not followed
    further: it is [NonFinite] as a whole. *)
Fixpoint omp2_loop (MAXITER : nat) (e : env) : outcome run :=
  match MAXITER with
  | O => Finite {| iterations := []; final := e; exit := Exhausted |}
  | S k =>
      e1 <- omp2_iteration e ;;
      if converged e1
      then Finite {| iterations := [e1]; final := e1; exit := Break |}
      else
        r <- omp2_loop k (update_old e1) ;;
        Finite {| iterations := e1 :: iterations r;
                  final := final r; exit := exit r |}
  end.

Definition omp2 (MAXITER : nat) (C0 : matrix) : outcome run :=
  omp2_loop MAXITER (initial_env C0).

(** What the assignments to blocks leave untouched since the arrays were
    created with np.zeros: [opdm_corr] outside its two diagonal blocks,
    [tpdm_corr] outside its two blocks, [X] outside its virtual-occupied
    block; and [opdm_ref], which the loop never assigns. *)
Definition untouched_blocks (e : env) : Prop :=
  (forall p q, (p < nso)%nat -> (q < nso)%nat ->
     (p <? nocc)%nat && (q <? nocc)%nat = false ->
     (nocc <=? p)%nat && (nocc <=? q)%nat = false ->
     opdm_corr e p q = 0) /\
  (forall p q r s, (p < nso)%nat -> (q < nso)%nat -> (r < nso)%nat -> (s < nso)%nat ->
     (nocc <=? p)%nat && (nocc <=? q)%nat && (r <? nocc)%nat && (s <? nocc)%nat = false ->
     (p <? nocc)%nat && (q <? nocc)%nat && (nocc <=? r)%nat && (nocc <=? s)%nat = false ->
     tpdm_corr e p q r s = 0) /\
  (forall p q, (p < nso)%nat -> (q < nso)%nat ->
     (nocc <=? p)%nat && (q <? nocc)%nat = false ->
     X e p q = 0) /\
  opdm_ref e = store2 nso nso (set_oo zeros2 identity).

(** The environments in which the loop body is entered: the initial one,
    and the one left by an iteration that did not pass the convergence
    test. *)
Inductive enters (C0 : matrix) : env -> Prop :=
| enters_first : enters C0 (initial_env C0)
| enters_next (e e1 : env) :
    enters C0 e ->
    omp2_iteration e = Finite e1 ->
    converged e1 = false ->
    enters C0 (update_old e1).

End OMP2.

(** ** The amplitude update and the two-particle density, as specified *)

Section Specification.

Variable nso nocc : nat.

(** D[a,b,i,j] = eps[i] + eps[j] - eps[a] - eps[b], with a, b virtual. *)
Definition spec_D (eps0 : vector) : tensor4 :=
  fun a b i j =>
    eps0 i + eps0 j - eps0 (nocc + a)%nat - eps0 (nocc + b)%nat.

(** The raw contraction of fprime_vv with t_prev over one virtual index, and
    of fprime_oo with t_prev over one occupied index. *)
Definition spec_vv_term (fprime0 : matrix) (t_prev : tensor4) : tensor4 :=
  fun a b i j =>
    sum_lt (nso - nocc) (fun c =>
      fprime0 (nocc + a)%nat (nocc + c)%nat * t_prev c b i j).

Definition spec_oo_term (fprime0 : matrix) (t_prev : tensor4) : tensor4 :=
  fun a b i j => sum_lt nocc (fun k => fprime0 k i * t_prev a b k j).

(** t_new = [ gmo_vvoo + (vv term antisymmetrized over a,b)
                       - (oo term antisymmetrized over i,j) ] / D *)
Definition spec_t_new (fprime0 : matrix) (gmo0 : tensor4) (eps0 : vector)
    (t_prev : tensor4) : tensor4 :=
  fun a b i j =>
    (gmo0 (nocc + a)%nat (nocc + b)%nat i j
     + (spec_vv_term fprime0 t_prev a b i j - spec_vv_term fprime0 t_prev b a i j)
     - (spec_oo_term fprime0 t_prev a b i j - spec_oo_term fprime0 t_prev a b j i))
    / spec_D eps0 a b i j.

(** tpdm_corr: t on the virtual-virtual-occupied-occupied block, its
    four-leg transpose on the occupied-occupied-virtual-virtual block, zero
    on every other block. *)
Definition spec_tpdm_corr (t : tensor4) : tensor4 :=
  fun p q r s =>
    if (nocc <=? p)%nat && (nocc <=? q)%nat && (r <? nocc)%nat && (s <? nocc)%nat
    then t (p - nocc)%nat (q - nocc)%nat r s
    else if (p <? nocc)%nat && (q <? nocc)%nat && (nocc <=? r)%nat && (nocc <=? s)%nat
    then t (s - nocc)%nat (r - nocc)%nat q p
    else 0.

(** The antisymmetrized outer product of [A] and [B], with its four
    sign-permutation terms, and of [A] with itself, with its two. *)
Definition spec_outer4 (A B : matrix) : tensor4 :=
  fun p q r s =>
    A p r * B q s - A q r * B p s - A p s * B q r + A q s * B p r.

Definition spec_outer2 (A : matrix) : tensor4 :=
  fun p q r s => A p r * A q s - A q r * A p s.

Definition spec_tpdm (t : tensor4) (opdm_corr0 opdm_ref0 : matrix) : tensor4 :=
  fun p q r s =>
    spec_tpdm_corr t p q r s
    + spec_outer4 opdm_corr0 opdm_ref0 p q r s
    + spec_outer2 opdm_ref0 p q r s.

End Specification.

(** ** The rotation operator over the reals

    The exponential of a rational matrix is not rational in general, so the
    rotation operator is stated over the reals. *)

Section RealMatrices.

Local Open Scope R_scope.

(** Real matrices, their finite sums, products and powers. *)
Definition Rmatrix := nat -> nat -> R.

Fixpoint Rsum_lt (n : nat) (f : nat -> R) : R :=
  match n with
  | O => 0
  | S k => Rsum_lt k f + f k
  end.

Definition Ridentity : Rmatrix := fun p q => if Nat.eqb p q then 1 else 0.

Definition Rdot (n : nat) (A B : Rmatrix) : Rmatrix :=
  fun p q => Rsum_lt n (fun r => A p r * B r q).

Fixpoint matrix_power (n : nat) (A : Rmatrix) (k : nat) : Rmatrix :=
  match k with
  | O => Ridentity
  | S k' => Rdot n (matrix_power n A k') A
  end.

(** The partial sums of the exponential series of [A]. *)
Definition exp_partial_sum (n : nat) (A : Rmatrix) (N : nat) : Rmatrix :=
  fun p q => sum_f_R0 (fun k => / INR (fact k) * matrix_power n A k p q) N.

(** Modelled from the spec: the matrix exponential of the rotation operator
    U = matrix-exponential(X - X^t).  The notebook calls
    [scipy.linalg.expm], which is outside the repository; [U] is the
    exponential of [A] when every entry of [U] is the limit of that entry
    of the partial sums of the series. *)
Definition is_matrix_exponential (n : nat) (A U : Rmatrix) : Prop :=
  forall p q, (p < n)%nat -> (q < n)%nat ->
    Un_cv (fun N => exp_partial_sum n A N p q) (U p q).

(** U^t . U = identity *)
Definition orthogonal (n : nat) (U : Rmatrix) : Prop :=
  forall p q, (p < n)%nat -> (q < n)%nat ->
    Rsum_lt n (fun r => U r p * U r q) = Ridentity p q.

Definition Rantisymmetric (n : nat) (A : Rmatrix) : Prop :=
  forall p q, (p < n)%nat -> (q < n)%nat -> A p q = - A q p.

(** The entries of an array of the loop, as reals. *)
Definition to_real (A : matrix) : Rmatrix := fun p q => Q2R (this (A p q)).

End RealMatrices.

(** ** Decision procedures and inputs for running the model *)

Definition antisymmetric4b (n m : nat) (g : tensor4) : bool :=
  all_lt n (fun p => all_lt n (fun q => all_lt m (fun r => all_lt m (fun s =>
    Qc_eqb (g p q r s) (- g q p r s) && Qc_eqb (g p q r s) (- g p q s r))))).

Definition eq_on2b (n m : nat) (A B : matrix) : bool :=
  all_lt n (fun p => all_lt m (fun q => Qc_eqb (A p q) (B p q))).

Definition is_finite {A : Type} (o : outcome A) : bool :=
  match o with Finite _ => true | _ => false end.

(** The series of the exponential cut after its linear term.  It stands in
    for [scipy.linalg.expm], which is outside the repository, where the
    model is run on concrete inputs; like that routine it maps the zero
    matrix to the identity. *)
Definition expm_linear (n : nat) (A : matrix) : matrix :=
  fun p q => identity p q + A p q.

Definition Qc_of (a : Z) (b : positive) : Qc := Q2Qc (a # b).

(** Four spin orbitals, two of them occupied. *)
Definition hao4 : matrix :=
  fun p q =>
    if Nat.eqb p q then Qc_of (Z.of_nat p) 1
    else if Nat.eqb (p + q) 3 then Qc_of 1 3 else 0.

Definition gao4 : tensor4 :=
  fun p q r s =>
    if Nat.eqb p q || Nat.eqb r s then 0
    else (if (p <? q)%nat then 1 else - (1))
         * (if (r <? s)%nat then 1 else - (1))
         * Qc_of (Z.of_nat (1 + Nat.min p q + Nat.min r s)) 2.

(** A diagonal core Hamiltonian without two-electron repulsion. *)
Definition hao_diag : matrix :=
  fun p q => if Nat.eqb p q then Qc_of (Z.of_nat (S p)) 1 else 0.

(** Orbital energies with the occupied orbital 1 above the virtual orbital 2
    and with gaps far below 1e-6; a matrix that is not symmetric. *)
Definition eps_near : vector :=
  fun p =>
    match p with
    | 0%nat => 1
    | 1%nat => Qc_of 2 1
    | 2%nat => 1 + Qc_of 1 1000000000
    | _ => Qc_of 2 1 + Qc_of 2 1000000000
    end.

Definition F_skew : matrix := fun p q => Qc_of (Z.of_nat p) 1.

(** A core Hamiltonian with these orbital energies on its diagonal. *)
Definition hao_near : matrix :=
  fun p q => if Nat.eqb p q then eps_near p else 0.

Definition tolerance : Qc := Qc_of 1 1000000.

(** The options of the notebook: E_conv = 1.0e-8. *)
Definition E_conv_default : Qc := Qc_of 1 100000000.

(** Observations of a result, as plain fractions. *)
Definition entry4_of (o : outcome tensor4) (a b i j : nat) : option Q :=
  match o with Finite t => Some (this (t a b i j)) | _ => None end.

Definition entry2_of (o : outcome matrix) (p q : nat) : option Q :=
  match o with Finite A => Some (this (A p q)) | _ => None end.

Definition exit_of (o : outcome run) : option loop_exit :=
  match o with Finite r => Some (exit r) | _ => None end.


(** The orbital energies of every iteration. *)
Definition eps_of (n : nat) (o : outcome run) : option (list (list Q)) :=
  match o with
  | Finite r =>
      Some (map (fun e => table _ n (fun p => this (eps e p))) (iterations r))
  | _ => None
  end.



Definition value_of {A : Type} (o : outcome A) (d : A) : A :=
  match o with Finite a => a | _ => d end.

(** An environment with amplitudes that are not zero, as the loop body
    meets it after its first pass. *)
Definition env4 : env :=
  {| C := identity; hmo := hao4; gmo := gao4;
     t_amp := fun a b i j => gao4 (2 + a)%nat (2 + b)%nat i j;
     E_OMP2_old := 0;
     opdm_corr := zeros2;
     opdm_ref := store2 4 4 (set_oo 2 zeros2 identity);
     tpdm_corr := zeros4;
     X := zeros2;
     f := zeros2; fprime := zeros2; eps := zeros1; opdm := zeros2;
     tpdm := zeros4; F := zeros2; U := zeros2; E_OMP2 := 0 |}.

(** ** The cells before the loop: memory check, spin blocking *)

(** I_size = (nmo**4) * 8e-9 and memory_footprint = I_size * 1.5, in GB. *)
Definition I_size (nmo : nat) : Qc :=
  Q2Qc (inject_Z (Z.of_nat nmo ^ 4)) * Qc_of 8 1000000000.

Definition memory_footprint (nmo : nat) : Qc := I_size nmo * Qc_of 3 2.

(** numpy_memory = 2 *)
Definition numpy_memory_default : Qc := Qc_of 2 1.

Section MemoryCheck.

Import String.

(** if I_size > numpy_memory: raise Exception(...).  The message of the
    exception has memory_footprint and numpy_memory formatted into it; the
    model keeps its text without the two numbers. *)
Definition check_memory (nmo : nat) (numpy_memory : Qc) : outcome unit :=
  if Qc_ltb numpy_memory (I_size nmo)
  then Raised "Estimated memory utilization exceeds allotted memory limit"%string
  else Finite tt.

End MemoryCheck.

(** np.kron(np.eye(2), h) for a matrix [h] of shape (n, n): entry [k0, k1]
    is eye[i0, i1] * h[j0, j1] with k = i * n + j. *)
Definition kron_eye2 (n : nat) (h : matrix) : matrix :=
  fun p q => identity (p / n)%nat (q / n)%nat * h (p mod n)%nat (q mod n)%nat.

(** np.kron(identity, I) for a four-index array [I] whose last two axes have
    the extents [s2] and [s3]: NumPy prepends two axes of extent 1 to the
    2 x 2 identity, so that only the last two indices are split. *)
Definition kron_identity_4 (s2 s3 : nat) (I : tensor4) : tensor4 :=
  fun k0 k1 k2 k3 =>
    identity (k2 / s2)%nat (k3 / s3)%nat
    * I k0 k1 (k2 mod s2)%nat (k3 mod s3)%nat.

(** def spin_block_tei(I): I = np.kron(identity, I);
    return np.kron(identity, I.T) *)
Definition spin_block_tei (nbf : nat) (I : tensor4) : tensor4 :=
  let I1 := kron_identity_4 nbf nbf I in
  kron_identity_4 nbf nbf (T4 I1).

(** gao = I_spinblock.transpose(0, 2, 1, 3) - I_spinblock.transpose(0, 2, 3, 1) *)
Definition build_gao (I_spinblock : tensor4) : tensor4 :=
  fun p q r s => I_spinblock p r q s - I_spinblock p s q r.

(** ** Notions used to state further properties *)

(** The trace of a matrix of shape (n, n). *)
Definition trace (n : nat) (A : matrix) : Qc := sum_lt n (fun p => A p p).

(** The columns of [A] are orthonormal: A.T . A = identity. *)
Definition orthonormal (n : nat) (A : matrix) : Prop :=
  forall p q, (p < n)%nat -> (q < n)%nat ->
    sum_lt n (fun r => A r p * A r q) = identity p q.

(** (pq|rs) = (rs|pq) and (pq|rs) = (qp|sr) for an array of shape (n,n,n,n). *)
Definition pair_symmetric (n : nat) (I : tensor4) : Prop :=
  forall p q r s, (p < n)%nat -> (q < n)%nat -> (r < n)%nat -> (s < n)%nat ->
    I p q r s = I r s p q.

Definition reversal_symmetric (n : nat) (I : tensor4) : Prop :=
  forall p q r s, (p < n)%nat -> (q < n)%nat -> (r < n)%nat -> (s < n)%nat ->
    I p q r s = I s r q p.

Definition pair_symmetricb (n : nat) (I : tensor4) : bool :=
  all_lt n (fun p => all_lt n (fun q => all_lt n (fun r => all_lt n (fun s =>
    Qc_eqb (I p q r s) (I r s p q))))).

Definition reversal_symmetricb (n : nat) (I : tensor4) : bool :=
  all_lt n (fun p => all_lt n (fun q => all_lt n (fun r => all_lt n (fun s =>
    Qc_eqb (I p q r s) (I s r q p))))).

Definition symmetric2b (n : nat) (A : matrix) : bool :=
  all_lt n (fun p => all_lt n (fun q => Qc_eqb (A p q) (A q p))).

Definition orthonormalb (n : nat) (A : matrix) : bool :=
  all_lt n (fun p => all_lt n (fun q =>
    Qc_eqb (sum_lt n (fun r => A r p * A r q)) (identity p q))).

(** Two basis functions: integrals with the symmetries of real orbitals, a
    symmetric core Hamiltonian, and two orthogonal matrices. *)
Definition eri2 : tensor4 :=
  fun p q r s => Qc_of (Z.of_nat ((1 + p + q + 2 * p * q) * (1 + r + s + 2 * r * s))) 3.

Definition h2 : matrix :=
  fun p q => Qc_of (Z.of_nat (1 + p + q + p * q)) 2.

Definition rotation_3_4_5 : matrix :=
  fun p q =>
    match p, q with
    | 0%nat, 0%nat => Qc_of 3 5
    | 0%nat, 1%nat => Qc_of (-4) 5
    | 1%nat, 0%nat => Qc_of 4 5
    | 1%nat, 1%nat => Qc_of 3 5
    | _, _ => 0
    end.

Definition rotation_5_12_13 : matrix :=
  fun p q =>
    match p, q with
    | 0%nat, 0%nat => Qc_of 5 13
    | 0%nat, 1%nat => Qc_of (-12) 13
    | 1%nat, 0%nat => Qc_of 12 13
    | 1%nat, 1%nat => Qc_of 5 13
    | _, _ => 0
    end.

(** The number [n] as an array entry. *)
Definition Qc_of_nat (n : nat) : Qc := Qc_of (Z.of_nat n) 1.

(** The einsum calls of the two transforms, one by one. *)
Definition einsum_pq_qQ (n : nat) (h C0 : matrix) : matrix :=
  fun p Q => sum_lt n (fun q => h p q * C0 q Q).

Definition einsum_pQ_pP (n : nat) (h C0 : matrix) : matrix :=
  fun P Q => sum_lt n (fun p => h p Q * C0 p P).

Definition einsum_pqrs_sS (n : nat) (g : tensor4) (C0 : matrix) : tensor4 :=
  fun p q r S => sum_lt n (fun s => g p q r s * C0 s S).

Definition einsum_pqrS_rR (n : nat) (g : tensor4) (C0 : matrix) : tensor4 :=
  fun p q R S => sum_lt n (fun r => g p q r S * C0 r R).

Definition einsum_pqRS_qQ (n : nat) (g : tensor4) (C0 : matrix) : tensor4 :=
  fun p Q R S => sum_lt n (fun q => g p q R S * C0 q Q).

Definition einsum_pQRS_pP (n : nat) (g : tensor4) (C0 : matrix) : tensor4 :=
  fun P Q R S => sum_lt n (fun p => g p Q R S * C0 p P).



(** ** Finite sums *)

Lemma sum_lt_ext (n : nat) (f g : nat -> Qc) :
  (forall i, (i < n)%nat -> f i = g i) -> sum_lt n f = sum_lt n g.
Proof.
  induction n as [|n IH]; intros H; simpl; [reflexivity|].
  rewrite IH by (intros; apply H; lia).
  rewrite (H n) by lia. reflexivity.
Qed.

Lemma sum_lt_zero (n : nat) (f : nat -> Qc) :
  (forall i, (i < n)%nat -> f i = 0) -> sum_lt n f = 0.
Proof.
  induction n as [|n IH]; intros H; simpl; [reflexivity|].
  rewrite IH by (intros; apply H; lia).
  rewrite (H n) by lia. ring.
Qed.

Lemma sum_lt_plus (n : nat) (f g : nat -> Qc) :
  sum_lt n (fun i => f i + g i) = sum_lt n f + sum_lt n g.
Proof. induction n as [|n IH]; simpl; [ring | rewrite IH; ring]. Qed.

Lemma sum_lt_opp (n : nat) (f : nat -> Qc) :
  sum_lt n (fun i => - f i) = - sum_lt n f.
Proof. induction n as [|n IH]; simpl; [ring | rewrite IH; ring]. Qed.

Lemma sum_lt_scal_r (n : nat) (f : nat -> Qc) (c : Qc) :
  sum_lt n f * c = sum_lt n (fun i => f i * c).
Proof. induction n as [|n IH]; simpl; [ring | rewrite <- IH; ring]. Qed.

Lemma sum_lt_scal_l (n : nat) (f : nat -> Qc) (c : Qc) :
  c * sum_lt n f = sum_lt n (fun i => c * f i).
Proof. induction n as [|n IH]; simpl; [ring | rewrite <- IH; ring]. Qed.

(** Exchange of two summations. *)
Lemma sum_lt_swap (n m : nat) (f : nat -> nat -> Qc) :
  sum_lt n (fun i => sum_lt m (fun j => f i j)) =
  sum_lt m (fun j => sum_lt n (fun i => f i j)).
Proof.
  induction n as [|n IH]; simpl.
  - symmetry. apply sum_lt_zero. reflexivity.
  - rewrite IH, <- sum_lt_plus. reflexivity.
Qed.

(** A double sum over a square of a summand that changes sign when its two
    indices are exchanged, against weights that are exchanged as well. *)
Lemma sum_lt_pair_exchange (n : nat) (f : nat -> nat -> Qc) (u v : nat -> Qc) :
  (forall i j, (i < n)%nat -> (j < n)%nat -> f i j = - f j i) ->
  sum_lt n (fun i => sum_lt n (fun j => f i j * u j) * v i) =
  - sum_lt n (fun i => sum_lt n (fun j => f i j * v j) * u i).
Proof.
  intros Hf.
  rewrite <- sum_lt_opp.
  transitivity (sum_lt n (fun i => sum_lt n (fun j => f i j * u j * v i))).
  { apply sum_lt_ext; intros i Hi. apply sum_lt_scal_r. }
  rewrite sum_lt_swap.
  apply sum_lt_ext; intros i Hi.
  rewrite sum_lt_scal_r, <- sum_lt_opp.
  apply sum_lt_ext; intros j Hj.
  rewrite (Hf j i) by assumption. ring.
Qed.

Lemma all_lt_spec (n : nat) (p : nat -> bool) :
  all_lt n p = true <-> (forall i, (i < n)%nat -> p i = true).
Proof.
  induction n as [|n IH]; simpl.
  - split; [intros _ i Hi; lia | reflexivity].
  - rewrite andb_true_iff, IH. split.
    + intros [H1 H2] i Hi. destruct (Nat.eq_dec i n) as [->|Hne]; [assumption|].
      apply H1; lia.
    + intros H; split; [intros i Hi; apply H; lia | apply H; lia].
Qed.

Lemma Qc_eqb_eq (x y : Qc) : Qc_eqb x y = true <-> x = y.
Proof.
  unfold Qc_eqb. rewrite Qeq_bool_iff. split.
  - apply Qc_is_canon.
  - intros ->. reflexivity.
Qed.

Lemma Qc_eqb_neq (x y : Qc) : Qc_eqb x y = false <-> x <> y.
Proof.
  rewrite <- Qc_eqb_eq. destruct (Qc_eqb x y); split; congruence.
Qed.

Lemma Qc_ltb_lt (x y : Qc) : Qc_ltb x y = true <-> x < y.
Proof.
  unfold Qc_ltb, Qclt, Qccompare. rewrite Qlt_alt.
  destruct (this x ?= this y)%Q; split; congruence.
Qed.

(** ** Integral transform: antisymmetry is preserved *)

Section IntegralTransform.

Variable n : nat.
Variable gao : tensor4.
Variable C : matrix.
Hypothesis gao_antisym : antisymmetric4 n n gao.

Lemma ao_to_mo_tei_swap_bra (P Q R S : nat) :
  ao_to_mo_tei n gao C P Q R S = - ao_to_mo_tei n gao C Q P R S.
Proof.
  unfold ao_to_mo_tei.
  apply (sum_lt_pair_exchange n
    (fun p q => sum_lt n (fun r =>
       sum_lt n (fun s => gao p q r s * C s S) * C r R))).
  intros p q Hp Hq.
  rewrite <- sum_lt_opp. apply sum_lt_ext; intros r Hr.
  rewrite !sum_lt_scal_r, <- sum_lt_opp. apply sum_lt_ext; intros s Hs.
  destruct (gao_antisym p q r s Hp Hq Hr Hs) as [-> _]. ring.
Qed.

Lemma ao_to_mo_tei_swap_ket (P Q R S : nat) :
  ao_to_mo_tei n gao C P Q R S = - ao_to_mo_tei n gao C P Q S R.
Proof.
  unfold ao_to_mo_tei.
  rewrite <- sum_lt_opp. apply sum_lt_ext; intros p Hp.
  rewrite !sum_lt_scal_r, <- sum_lt_opp. apply sum_lt_ext; intros q Hq.
  assert (E : sum_lt n (fun r => sum_lt n (fun s => gao p q r s * C s S) * C r R) =
              - sum_lt n (fun r => sum_lt n (fun s => gao p q r s * C s R) * C r S)).
  { apply (sum_lt_pair_exchange n (fun r s => gao p q r s)).
    intros r s Hr Hs. apply (gao_antisym p q r s); assumption. }
  rewrite E. ring.
Qed.

End IntegralTransform.

(** ** Stored arrays *)

Lemma table_nth (A : Type) (n : nat) (g : nat -> A) (d : A) (p : nat) :
  (p < n)%nat -> nth p (table A n g) d = g p.
Proof.
  intros Hp. unfold table.
  rewrite (nth_indep _ d (g O)) by (rewrite length_map, length_seq; exact Hp).
  rewrite map_nth, seq_nth by exact Hp. reflexivity.
Qed.

Lemma store1_in (n : nat) (A : vector) (p : nat) :
  (p < n)%nat -> store1 n A p = A p.
Proof. intros Hp. unfold store1. apply table_nth, Hp. Qed.

Lemma store2_in (n m : nat) (A : matrix) (p q : nat) :
  (p < n)%nat -> (q < m)%nat -> store2 n m A p q = A p q.
Proof.
  intros Hp Hq. unfold store2. rewrite table_nth by exact Hp.
  apply store1_in, Hq.
Qed.

Lemma store4_in (n1 n2 n3 n4 : nat) (A : tensor4) (p q r s : nat) :
  (p < n1)%nat -> (q < n2)%nat -> (r < n3)%nat -> (s < n4)%nat ->
  store4 n1 n2 n3 n4 A p q r s = A p q r s.
Proof.
  intros Hp Hq Hr Hs. unfold store4.
  rewrite table_nth by exact Hp. rewrite table_nth by exact Hq.
  apply store2_in; assumption.
Qed.

Lemma antisymmetric4b_spec (n m : nat) (g : tensor4) :
  antisymmetric4b n m g = true -> antisymmetric4 n m g.
Proof.
  unfold antisymmetric4b. intros H p q r s Hp Hq Hr Hs.
  rewrite all_lt_spec in H. specialize (H p Hp).
  rewrite all_lt_spec in H. specialize (H q Hq).
  rewrite all_lt_spec in H. specialize (H r Hr).
  rewrite all_lt_spec in H. specialize (H s Hs).
  apply andb_true_iff in H. destruct H as [H1 H2].
  split; apply Qc_eqb_eq; assumption.
Qed.

(** C5.  For every two-electron array [gao] that changes sign under exchange
    of its first two and of its last two indices, and every coefficient
    matrix, the array returned by [ao_to_mo_tei] changes sign under the same
    two exchanges. *)
Theorem ao_to_mo_tei_antisymmetric (n : nat) (gao0 : tensor4) (C0 : matrix) :
  antisymmetric4 n n gao0 ->
  antisymmetric4 n n (ao_to_mo_tei n gao0 C0).
Proof.
  intros Hg P Q R S _ _ _ _. split.
  - apply ao_to_mo_tei_swap_bra, Hg.
  - apply ao_to_mo_tei_swap_ket, Hg.
Qed.

Lemma ao_to_mo_tei_antisymmetric_witness :
  antisymmetric4 4 4 gao4 /\
  antisymmetric4 4 4 (ao_to_mo_tei 4 gao4 hao4).
Proof.
  assert (H : antisymmetric4 4 4 gao4)
    by (apply antisymmetric4b_spec; vm_compute; reflexivity).
  split; [exact H | exact (ao_to_mo_tei_antisymmetric 4 gao4 hao4 H)].
Defined.

(** ** Element-wise division *)

Lemma nonzero2_spec (n1 n2 : nat) (D : matrix) :
  nonzero2 n1 n2 D = true <->
  (forall a i, (a < n1)%nat -> (i < n2)%nat -> D a i <> 0).
Proof.
  unfold nonzero2. rewrite all_lt_spec. split.
  - intros H a i Ha Hi. specialize (H a Ha). rewrite all_lt_spec in H.
    specialize (H i Hi). apply negb_true_iff, Qc_eqb_neq in H. exact H.
  - intros H a Ha. apply all_lt_spec. intros i Hi.
    apply negb_true_iff, Qc_eqb_neq, H; assumption.
Qed.

Lemma nonzero4_spec (n1 n2 n3 n4 : nat) (D : tensor4) :
  nonzero4 n1 n2 n3 n4 D = true <->
  (forall a b i j, (a < n1)%nat -> (b < n2)%nat -> (i < n3)%nat -> (j < n4)%nat ->
     D a b i j <> 0).
Proof.
  unfold nonzero4. rewrite all_lt_spec. split.
  - intros H a b i j Ha Hb Hi Hj.
    specialize (H a Ha). rewrite all_lt_spec in H.
    specialize (H b Hb). rewrite all_lt_spec in H.
    specialize (H i Hi). rewrite all_lt_spec in H.
    specialize (H j Hj). apply negb_true_iff, Qc_eqb_neq in H. exact H.
  - intros H a Ha. apply all_lt_spec. intros b Hb.
    apply all_lt_spec. intros i Hi. apply all_lt_spec. intros j Hj.
    apply negb_true_iff, Qc_eqb_neq, H; assumption.
Qed.

Lemma divide4_finite (n1 n2 n3 n4 : nat) (T D R : tensor4) :
  divide4 n1 n2 n3 n4 T D = Finite R ->
  nonzero4 n1 n2 n3 n4 D = true /\
  eq_on4 n1 n2 n3 n4 R (fun a b i j => T a b i j / D a b i j).
Proof.
  unfold divide4. destruct (nonzero4 n1 n2 n3 n4 D); [|discriminate].
  intros H. injection H as <-. split; [reflexivity|].
  intros a b i j Ha Hb Hi Hj. apply store4_in; assumption.
Qed.

Lemma divide2_finite (n1 n2 : nat) (T D R : matrix) :
  divide2 n1 n2 T D = Finite R ->
  nonzero2 n1 n2 D = true /\
  eq_on2 n1 n2 R (fun a i => T a i / D a i).
Proof.
  unfold divide2. destruct (nonzero2 n1 n2 D); [|discriminate].
  intros H. injection H as <-. split; [reflexivity|].
  intros a i Ha Hi. apply store2_in; assumption.
Qed.


(** ** The amplitude update *)

Section Amplitudes.

Variable nso nocc : nat.
Variable fprime0 : matrix.
Variable gmo0 : tensor4.
Variable eps0 : vector.
Variable t : tensor4.

Local Abbreviation nv := (nvirt nso nocc).

Lemma nvirt_in_range (a : nat) : (a < nv)%nat -> (nocc + a < nso)%nat.
Proof. unfold nvirt. lia. Qed.

Lemma nocc_in_range (a i : nat) : (a < nv)%nat -> (i < nocc)%nat -> (i < nso)%nat.
Proof. unfold nvirt. lia. Qed.

Lemma t_amp_denominator_swap (a b i j : nat) :
  t_amp_denominator nocc eps0 a b i j = t_amp_denominator nocc eps0 b a i j /\
  t_amp_denominator nocc eps0 a b i j = t_amp_denominator nocc eps0 a b j i.
Proof. unfold t_amp_denominator. split; ring. Qed.

Hypothesis gmo_antisym : antisymmetric4 nso nso gmo0.
Hypothesis t_antisym : antisymmetric4 nv nocc t.

Lemma t1_antisym : antisymmetric4 nv nocc (t1 nocc gmo0).
Proof.
  intros a b i j Ha Hb Hi Hj. unfold t1.
  apply gmo_antisym;
    eauto using nvirt_in_range, nocc_in_range.
Qed.

Lemma t2_swap_ket (a b i j : nat) :
  (b < nv)%nat -> (i < nocc)%nat -> (j < nocc)%nat ->
  t2 nso nocc fprime0 t a b i j = - t2 nso nocc fprime0 t a b j i.
Proof.
  intros Hb Hi Hj. unfold t2. rewrite <- sum_lt_opp.
  apply sum_lt_ext; intros c Hc.
  destruct (t_antisym c b i j Hc Hb Hi Hj) as [_ ->]. ring.
Qed.

Lemma t3_swap_bra (a b i j : nat) :
  (a < nv)%nat -> (b < nv)%nat -> (j < nocc)%nat ->
  t3 nocc fprime0 t a b i j = - t3 nocc fprime0 t b a i j.
Proof.
  intros Ha Hb Hj. unfold t3. rewrite <- sum_lt_opp.
  apply sum_lt_ext; intros k Hk.
  destruct (t_antisym a b k j Ha Hb Hk Hj) as [-> _]. ring.
Qed.

Lemma t_amp_numerator_antisym :
  antisymmetric4 nv nocc (t_amp_numerator nso nocc fprime0 gmo0 t).
Proof.
  intros a b i j Ha Hb Hi Hj. unfold t_amp_numerator. split.
  - destruct (t1_antisym a b i j Ha Hb Hi Hj) as [-> _].
    rewrite (t3_swap_bra a b i j), (t3_swap_bra a b j i) by assumption. ring.
  - destruct (t1_antisym a b i j Ha Hb Hi Hj) as [_ ->].
    rewrite (t2_swap_ket a b i j), (t2_swap_ket b a i j) by assumption. ring.
Qed.

Lemma update_t_amp_antisym (t_new : tensor4) :
  update_t_amp nso nocc fprime0 gmo0 eps0 t = Finite t_new ->
  antisymmetric4 nv nocc t_new.
Proof.
  unfold update_t_amp. intros H.
  apply divide4_finite in H. destruct H as [_ H].
  intros a b i j Ha Hb Hi Hj.
  rewrite !H by assumption.
  destruct (t_amp_numerator_antisym a b i j Ha Hb Hi Hj) as [E1 E2].
  destruct (t_amp_denominator_swap a b i j) as [D1 D2].
  split.
  - rewrite <- D1, E1. unfold Qcdiv. ring.
  - rewrite <- D2, E2. unfold Qcdiv. ring.
Qed.

End Amplitudes.

(** ** One iteration of the loop *)

Section Loop.

Variable nso nocc : nat.
Variable hao : matrix.
Variable gao : tensor4.
Variable E_nuc E_conv : Qc.
Variable expm : nat -> matrix -> matrix.

Local Abbreviation nv := (nvirt nso nocc).
Local Abbreviation iteration := (omp2_iteration nso nocc hao gao E_nuc expm).
Local Abbreviation entered := (enters nso nocc hao gao E_nuc E_conv expm).

(** What an iteration that ends with finite numbers has assigned. *)
Lemma omp2_iteration_inv (e e1 : env) :
  iteration e = Finite e1 ->
  update_t_amp nso nocc (fprime e1) (gmo e) (eps e1) (t_amp e) = Finite (t_amp e1) /\
  update_X nso nocc (X e) (F e1) (eps e1) = Finite (X e1) /\
  f e1 = fock nso nocc e /\
  fprime e1 = store2 nso nso (build_fprime (f e1)) /\
  eps e1 = orbital_energies nso nocc e /\
  opdm_corr e1 = store2 nso nso (build_opdm_corr nso nocc (opdm_corr e) (t_amp e1)) /\
  opdm_ref e1 = opdm_ref e /\
  opdm e1 = store2 nso nso (add2 (opdm_corr e1) (opdm_ref e1)) /\
  tpdm_corr e1 =
    store4 nso nso nso nso (build_tpdm_corr nocc (tpdm_corr e) (t_amp e1)) /\
  tpdm e1 =
    store4 nso nso nso nso (build_tpdm (tpdm_corr e1) (opdm_corr e1) (opdm_ref e1)) /\
  F e1 = store2 nso nso (build_F nso (hmo e) (gmo e) (opdm e1) (tpdm e1)) /\
  U e1 = store2 nso nso (expm nso (generator (X e1))) /\
  C e1 = store2 nso nso (dot nso (C e) (U e1)) /\
  hmo e1 = store2 nso nso (ao_to_mo nso hao (C e1)) /\
  gmo e1 = store4 nso nso nso nso (ao_to_mo_tei nso gao (C e1)) /\
  E_OMP2 e1 = energy nso E_nuc (hmo e1) (gmo e1) (opdm e1) (tpdm e1) /\
  E_OMP2_old e1 = E_OMP2_old e.
Proof.
  unfold omp2_iteration. cbv zeta.
  destruct (update_t_amp _ _ _ _ _ _) as [t_amp1| |] eqn:Ht; simpl; try discriminate.
  destruct (update_X _ _ _ _ _) as [X1| |] eqn:HX; simpl; try discriminate.
  intros H. injection H as <-. simpl.
  repeat split; assumption.
Qed.

Lemma zeros4_antisym (n m : nat) : antisymmetric4 n m zeros4.
Proof. intros p q r s _ _ _ _. unfold zeros4. split; ring. Qed.

Lemma store4_ao_to_mo_tei_antisym (C0 : matrix) :
  antisymmetric4 nso nso gao ->
  antisymmetric4 nso nso (store4 nso nso nso nso (ao_to_mo_tei nso gao C0)).
Proof.
  intros Hg p q r s Hp Hq Hr Hs. rewrite !store4_in by assumption. split.
  - apply ao_to_mo_tei_swap_bra, Hg.
  - apply ao_to_mo_tei_swap_ket, Hg.
Qed.

Lemma iteration_gmo_antisym (e e1 : env) :
  antisymmetric4 nso nso gao ->
  iteration e = Finite e1 ->
  antisymmetric4 nso nso (gmo e1).
Proof.
  intros Hg H. apply omp2_iteration_inv in H.
  destruct H as (_ & _ & _ & _ & _ & _ & _ & _ & _ & _ & _ & _ & _ & _ & -> & _).
  apply store4_ao_to_mo_tei_antisym, Hg.
Qed.

Lemma iteration_t_amp_antisym (e e1 : env) :
  antisymmetric4 nso nso (gmo e) ->
  antisymmetric4 nv nocc (t_amp e) ->
  iteration e = Finite e1 ->
  antisymmetric4 nv nocc (t_amp e1).
Proof.
  intros Hg Ht H. apply omp2_iteration_inv in H. destruct H as (H & _).
  exact (update_t_amp_antisym nso nocc _ _ _ _ Hg Ht _ H).
Qed.

(** The integrals and the amplitudes are antisymmetric whenever the loop
    body is entered. *)
Lemma entered_antisym (C0 : matrix) (e : env) :
  antisymmetric4 nso nso gao ->
  entered C0 e ->
  antisymmetric4 nso nso (gmo e) /\ antisymmetric4 nv nocc (t_amp e).
Proof.
  intros Hg He. induction He as [|e e1 He [IHg IHt] Hit Hconv].
  - split; simpl.
    + apply store4_ao_to_mo_tei_antisym, Hg.
    + apply zeros4_antisym.
  - split; simpl.
    + exact (iteration_gmo_antisym e e1 Hg Hit).
    + exact (iteration_t_amp_antisym e e1 IHg IHt Hit).
Qed.

(** Every iteration that a run of the loop executed was entered from an
    environment of [enters]. *)
Lemma omp2_loop_iterations (C0 : matrix) (MAXITER : nat) (e : env) (r : run) :
  entered C0 e ->
  omp2_loop nso nocc hao gao E_nuc E_conv expm MAXITER e = Finite r ->
  forall e1, In e1 (iterations r) ->
    exists e', entered C0 e' /\ iteration e' = Finite e1.
Proof.
  revert e r. induction MAXITER as [|k IH]; intros e r He H e1 Hin; simpl in H.
  - injection H as <-. destruct Hin.
  - destruct (iteration e) as [e2| |] eqn:Hit; simpl in H; try discriminate.
    destruct (converged E_conv e2) eqn:Hc.
    + injection H as <-. simpl in Hin. destruct Hin as [<-|[]].
      exists e. split; assumption.
    + destruct (omp2_loop _ _ _ _ _ _ _ k (update_old e2)) as [r2| |] eqn:Hr;
        simpl in H; try discriminate.
      injection H as <-. simpl in Hin. destruct Hin as [<-|Hin].
      * exists e. split; assumption.
      * apply (IH (update_old e2) r2); try assumption.
        apply (enters_next _ _ _ _ _ _ _ _ e e2); assumption.
Qed.

Lemma update_X_inv (X0 F0 : matrix) (eps0 : vector) (X1 : matrix) :
  update_X nso nocc X0 F0 eps0 = Finite X1 ->
  exists Y,
    divide2 nv nocc (gradient nocc F0) (X_denominator nocc eps0) = Finite Y /\
    X1 = store2 nso nso (set_vo nocc X0 Y).
Proof.
  unfold update_X.
  destruct (divide2 _ _ _ _) as [Y| |]; simpl; try discriminate.
  intros H. injection H as <-. exists Y. split; reflexivity.
Qed.

Lemma initial_untouched (C0 : matrix) :
  untouched_blocks nso nocc (initial_env nso nocc hao gao C0).
Proof. repeat split; intros; reflexivity. Qed.

Lemma iteration_untouched (e e1 : env) :
  untouched_blocks nso nocc e ->
  iteration e = Finite e1 ->
  untouched_blocks nso nocc e1.
Proof.
  intros (Hoc & Htc & HX & Hor) H. apply omp2_iteration_inv in H.
  destruct H as (_ & HX1 & _ & _ & _ & Hoc1 & Hor1 & _ & Htc1 & _).
  apply update_X_inv in HX1. destruct HX1 as (Y & _ & HX1).
  repeat split.
  - intros p q Hp Hq Hoo Hvv. rewrite Hoc1, store2_in by assumption.
    unfold build_opdm_corr, set_oo, set_vv. rewrite Hoo, Hvv.
    apply Hoc; assumption.
  - intros p q r s Hp Hq Hr Hs Hvvoo Hoovv.
    rewrite Htc1, store4_in by assumption.
    unfold build_tpdm_corr, set_oovv, set_vvoo. rewrite Hoovv, Hvvoo.
    apply Htc; assumption.
  - intros p q Hp Hq Hvo. rewrite HX1, store2_in by assumption.
    unfold set_vo. rewrite Hvo. apply HX; assumption.
  - rewrite Hor1. exact Hor.
Qed.

Lemma entered_untouched (C0 : matrix) (e : env) :
  entered C0 e -> untouched_blocks nso nocc e.
Proof.
  intros He. induction He as [|e e1 He IH Hit Hconv].
  - apply initial_untouched.
  - exact (iteration_untouched e e1 IH Hit).
Qed.

(** The two-particle density an iteration assembles, entry by entry. *)
Lemma iteration_tpdm (e e1 : env) :
  untouched_blocks nso nocc e ->
  iteration e = Finite e1 ->
  eq_on4 nso nso nso nso (tpdm e1)
    (spec_tpdm nocc (t_amp e1) (opdm_corr e1) (opdm_ref e1)).
Proof.
  intros (_ & Htc & _) H. apply omp2_iteration_inv in H.
  destruct H as (_ & _ & _ & _ & _ & _ & _ & _ & Htc1 & Htp1 & _).
  intros p q r s Hp Hq Hr Hs.
  rewrite Htp1, store4_in by assumption.
  unfold build_tpdm, spec_tpdm, outer, spec_outer4, spec_outer2.
  assert (E : tpdm_corr e1 p q r s = spec_tpdm_corr nocc (t_amp e1) p q r s).
  { rewrite Htc1, store4_in by assumption.
    unfold build_tpdm_corr, set_oovv, set_vvoo, spec_tpdm_corr, T4.
    destruct ((p <? nocc)%nat && (q <? nocc)%nat
              && (nocc <=? r)%nat && (nocc <=? s)%nat) eqn:Hoovv;
    destruct ((nocc <=? p)%nat && (nocc <=? q)%nat
              && (r <? nocc)%nat && (s <? nocc)%nat) eqn:Hvvoo;
      try reflexivity.
    - exfalso.
      rewrite !andb_true_iff in Hoovv, Hvvoo.
      rewrite Nat.ltb_lt in Hoovv. rewrite Nat.leb_le in Hvvoo. lia.
    - apply Htc; assumption. }
  rewrite E. ring.
Qed.

End Loop.

(** C3.  In every iteration of the optimization loop the updated amplitude
    array changes sign under exchange of its two virtual indices and under
    exchange of its two occupied indices, when the two-electron array [gao]
    has these antisymmetries; the loop starts from the zero amplitudes of
    [initial_env]. *)
Theorem t_amp_antisymmetric (nso nocc : nat) (hao : matrix) (gao : tensor4)
    (E_nuc E_conv : Qc) (expm : nat -> matrix -> matrix)
    (MAXITER : nat) (C0 : matrix) (r : run) (e1 : env) :
  antisymmetric4 nso nso gao ->
  omp2 nso nocc hao gao E_nuc E_conv expm MAXITER C0 = Finite r ->
  In e1 (iterations r) ->
  antisymmetric4 (nvirt nso nocc) nocc (t_amp e1).
Proof.
  intros Hg Hrun Hin.
  destruct (omp2_loop_iterations nso nocc hao gao E_nuc E_conv expm
              C0 MAXITER _ r (enters_first _ _ _ _ _ _ _ C0) Hrun e1 Hin)
    as (e & He & Hit).
  destruct (entered_antisym nso nocc hao gao E_nuc E_conv expm C0 e Hg He)
    as [Hgmo Ht].
  exact (iteration_t_amp_antisym nso nocc hao gao E_nuc expm e e1 Hgmo Ht Hit).
Qed.

(** C7.  In every iteration the two-particle density is [tpdm_corr] (the
    amplitudes on the virtual-virtual-occupied-occupied block, their
    four-leg transpose on the occupied-occupied-virtual-virtual block, zero
    elsewhere) plus the four-term antisymmetrized outer product of
    [opdm_corr] with [opdm_ref] plus the two-term antisymmetrized outer
    product of [opdm_ref] with itself. *)
Theorem tpdm_assembly (nso nocc : nat) (hao : matrix) (gao : tensor4)
    (E_nuc E_conv : Qc) (expm : nat -> matrix -> matrix)
    (MAXITER : nat) (C0 : matrix) (r : run) (e1 : env) :
  omp2 nso nocc hao gao E_nuc E_conv expm MAXITER C0 = Finite r ->
  In e1 (iterations r) ->
  eq_on4 nso nso nso nso (tpdm e1)
    (spec_tpdm nocc (t_amp e1) (opdm_corr e1) (opdm_ref e1)).
Proof.
  intros Hrun Hin.
  destruct (omp2_loop_iterations nso nocc hao gao E_nuc E_conv expm
              C0 MAXITER _ r (enters_first _ _ _ _ _ _ _ C0) Hrun e1 Hin)
    as (e & He & Hit).
  apply (iteration_tpdm nso nocc hao gao E_nuc expm e e1); [|exact Hit].
  exact (entered_untouched nso nocc hao gao E_nuc E_conv expm C0 e He).
Qed.

(** ** The one-particle density *)

Section Densities.

Variable nso nocc : nat.
Variable t : tensor4.

Local Abbreviation nv := (nvirt nso nocc).

Hypothesis t_antisym : antisymmetric4 nv nocc t.

Lemma t_double_swap (a b i j : nat) :
  (a < nv)%nat -> (b < nv)%nat -> (i < nocc)%nat -> (j < nocc)%nat ->
  t b a j i = t a b i j.
Proof.
  intros Ha Hb Hi Hj.
  destruct (t_antisym b a j i Hb Ha Hj Hi) as [-> _].
  destruct (t_antisym a b j i Ha Hb Hj Hi) as [_ ->]. ring.
Qed.

Lemma opdm_corr_vv_symmetric : symmetric2 nv (opdm_corr_vv nso nocc t).
Proof.
  intros a b Ha Hb. unfold opdm_corr_vv, T4. f_equal.
  apply sum_lt_ext; intros i Hi. apply sum_lt_ext; intros j Hj.
  apply sum_lt_ext; intros c Hc.
  rewrite (t_double_swap b c i j), (t_double_swap a c i j) by assumption.
  ring.
Qed.

Lemma opdm_corr_oo_symmetric : symmetric2 nocc (opdm_corr_oo nso nocc t).
Proof.
  intros i j Hi Hj. unfold opdm_corr_oo, T4. f_equal.
  apply sum_lt_ext; intros k Hk. apply sum_lt_ext; intros a Ha.
  apply sum_lt_ext; intros b Hb.
  rewrite (t_double_swap a b i k), (t_double_swap a b j k) by assumption.
  ring.
Qed.

Lemma opdm_ref_symmetric (n : nat) :
  symmetric2 n (store2 nso nso (set_oo nocc zeros2 identity)).
Proof.
  intros p q Hp Hq.
  destruct (Nat.lt_ge_cases p nso) as [Hp'|Hp'];
  destruct (Nat.lt_ge_cases q nso) as [Hq'|Hq'].
  - rewrite !store2_in by assumption. unfold set_oo, identity, zeros2.
    rewrite (andb_comm (q <? nocc)%nat), (Nat.eqb_sym q p). reflexivity.
  - unfold store2. rewrite (nth_overflow _ _ (n:=q))
      by (unfold table; rewrite length_map, length_seq; exact Hq').
    rewrite table_nth by exact Hp'. unfold store1.
    rewrite nth_overflow
      by (unfold table; rewrite length_map, length_seq; exact Hq').
    reflexivity.
  - unfold store2. rewrite (nth_overflow _ _ (n:=p))
      by (unfold table; rewrite length_map, length_seq; exact Hp').
    rewrite table_nth by exact Hq'. unfold store1.
    rewrite nth_overflow
      by (unfold table; rewrite length_map, length_seq; exact Hp').
    reflexivity.
  - unfold store2. rewrite !nth_overflow
      by (unfold table; rewrite length_map, length_seq; assumption).
    reflexivity.
Qed.

Lemma build_opdm_corr_symmetric (opdm_corr0 : matrix) :
  (forall p q, (p < nso)%nat -> (q < nso)%nat ->
     (p <? nocc)%nat && (q <? nocc)%nat = false ->
     (nocc <=? p)%nat && (nocc <=? q)%nat = false ->
     opdm_corr0 p q = 0) ->
  symmetric2 nso (build_opdm_corr nso nocc opdm_corr0 t).
Proof.
  intros H0 p q Hp Hq. unfold build_opdm_corr, set_oo, set_vv.
  rewrite (andb_comm (q <? nocc)%nat), (andb_comm (nocc <=? q)%nat).
  destruct ((p <? nocc)%nat && (q <? nocc)%nat) eqn:Hoo.
  - apply andb_true_iff in Hoo. rewrite !Nat.ltb_lt in Hoo.
    apply opdm_corr_oo_symmetric; tauto.
  - destruct ((nocc <=? p)%nat && (nocc <=? q)%nat) eqn:Hvv.
    + apply andb_true_iff in Hvv. rewrite !Nat.leb_le in Hvv.
      apply opdm_corr_vv_symmetric; unfold nvirt; lia.
    + rewrite (H0 p q), (H0 q p); try assumption; try reflexivity.
      * rewrite andb_comm. exact Hoo.
      * rewrite andb_comm. exact Hvv.
Qed.

End Densities.

Lemma sum_lt_identity_r (n : nat) (g : nat -> Qc) (q : nat) :
  (q < n)%nat -> sum_lt n (fun r => g r * identity r q) = g q.
Proof.
  induction n as [|n IH]; intros Hq; [lia|]. simpl.
  destruct (Nat.eq_dec q n) as [->|Hne].
  - rewrite sum_lt_zero.
    + unfold identity. rewrite Nat.eqb_refl. ring.
    + intros r Hr. unfold identity.
      destruct (Nat.eqb_spec r n) as [E|_]; [lia|ring].
  - rewrite IH by lia. unfold identity.
    destruct (Nat.eqb_spec n q) as [E|_]; [lia|ring].
Qed.

(** ** Properties of one iteration *)

Section Iteration.

Variable nso nocc : nat.
Variable hao : matrix.
Variable gao : tensor4.
Variable E_nuc E_conv : Qc.
Variable expm : nat -> matrix -> matrix.

Local Abbreviation nv := (nvirt nso nocc).
Local Abbreviation iteration := (omp2_iteration nso nocc hao gao E_nuc expm).

Lemma iteration_opdm_symmetric (e e1 : env) :
  untouched_blocks nso nocc e ->
  iteration e = Finite e1 ->
  antisymmetric4 nv nocc (t_amp e1) ->
  symmetric2 nso (opdm e1).
Proof.
  intros (Hoc & _ & _ & Hor) H Ht. apply omp2_iteration_inv in H.
  destruct H as (_ & _ & _ & _ & _ & Hoc1 & Hor1 & Hop1 & _).
  intros p q Hp Hq. rewrite Hop1, !store2_in by assumption. unfold add2.
  f_equal.
  - rewrite Hoc1, !store2_in by assumption.
    apply build_opdm_corr_symmetric; assumption.
  - rewrite Hor1, Hor. apply (opdm_ref_symmetric nso nocc nso); assumption.
Qed.

(** The amplitude denominators are twice the rotation denominators on the
    diagonal, so the second division meets no zero when the first met none. *)
Lemma X_denominator_nonzero (eps0 : vector) :
  nonzero4 nv nv nocc nocc (t_amp_denominator nocc eps0) = true ->
  nonzero2 nv nocc (X_denominator nocc eps0) = true.
Proof.
  rewrite nonzero4_spec, nonzero2_spec. intros H a i Ha Hi E.
  apply (H a a i i Ha Ha Hi Hi).
  unfold X_denominator in E. unfold t_amp_denominator.
  replace (- eps0 (nocc + a)%nat - eps0 (nocc + a)%nat + eps0 i + eps0 i)
    with ((- eps0 (nocc + a)%nat + eps0 i) + (- eps0 (nocc + a)%nat + eps0 i))
    by ring.
  rewrite E. ring.
Qed.

(** An iteration ends with finite numbers when no amplitude denominator
    vanishes. *)
Lemma omp2_iteration_total (e : env) :
  (forall a b i j, (a < nv)%nat -> (b < nv)%nat -> (i < nocc)%nat -> (j < nocc)%nat ->
     t_amp_denominator nocc (orbital_energies nso nocc e) a b i j <> 0) ->
  exists e1, iteration e = Finite e1.
Proof.
  intros H. apply nonzero4_spec in H.
  unfold omp2_iteration. cbv zeta. unfold update_t_amp, divide4.
  rewrite H. simpl. unfold update_X, divide2.
  rewrite (X_denominator_nonzero _ H). simpl.
  eexists. reflexivity.
Qed.

Lemma spec_D_denominator (eps0 : vector) (a b i j : nat) :
  spec_D nocc eps0 a b i j = t_amp_denominator nocc eps0 a b i j.
Proof. unfold spec_D, t_amp_denominator. ring. Qed.

Lemma iteration_t_amp (e e1 : env) :
  iteration e = Finite e1 ->
  eq_on4 nv nv nocc nocc (t_amp e1)
    (spec_t_new nso nocc (fprime e1) (gmo e) (eps e1) (t_amp e)).
Proof.
  intros H. apply omp2_iteration_inv in H. destruct H as (H & _).
  unfold update_t_amp in H. apply divide4_finite in H. destruct H as [_ H].
  intros a b i j Ha Hb Hi Hj. rewrite H by assumption.
  unfold spec_t_new. rewrite spec_D_denominator.
  unfold t_amp_numerator, t1, t2, t3, spec_vv_term, spec_oo_term, nvirt, Qcdiv.
  ring.
Qed.

End Iteration.

(** C9.  In every iteration the one-particle density [opdm] is a symmetric
    matrix whenever the amplitudes of that iteration have their two
    antisymmetries. *)
Theorem opdm_symmetric (nso nocc : nat) (hao : matrix) (gao : tensor4)
    (E_nuc E_conv : Qc) (expm : nat -> matrix -> matrix)
    (MAXITER : nat) (C0 : matrix) (r : run) (e1 : env) :
  omp2 nso nocc hao gao E_nuc E_conv expm MAXITER C0 = Finite r ->
  In e1 (iterations r) ->
  antisymmetric4 (nvirt nso nocc) nocc (t_amp e1) ->
  symmetric2 nso (opdm e1).
Proof.
  intros Hrun Hin Ht.
  destruct (omp2_loop_iterations nso nocc hao gao E_nuc E_conv expm
              C0 MAXITER _ r (enters_first _ _ _ _ _ _ _ C0) Hrun e1 Hin)
    as (e & He & Hit).
  apply (iteration_opdm_symmetric nso nocc hao gao E_nuc expm e e1);
    try assumption.
  exact (entered_untouched nso nocc hao gao E_nuc E_conv expm C0 e He).
Qed.

(** C2.  In every iteration whose orbital-energy denominators
    D[a,b,i,j] = eps[i] + eps[j] - eps[a] - eps[b] are all nonzero, the
    updated amplitudes are, entry by entry, the virtual-virtual-occupied-
    occupied block of [gmo] plus the contraction of fprime_vv with the
    previous amplitudes antisymmetrized over a,b minus the contraction of
    fprime_oo with them antisymmetrized over i,j, divided by D. *)
Theorem t_amp_update_formula (nso nocc : nat) (hao : matrix) (gao : tensor4)
    (E_nuc : Qc) (expm : nat -> matrix -> matrix) (e : env) :
  (forall a b i j,
     (a < nvirt nso nocc)%nat -> (b < nvirt nso nocc)%nat ->
     (i < nocc)%nat -> (j < nocc)%nat ->
     spec_D nocc (orbital_energies nso nocc e) a b i j <> 0) ->
  exists e1,
    omp2_iteration nso nocc hao gao E_nuc expm e = Finite e1 /\
    eq_on4 (nvirt nso nocc) (nvirt nso nocc) nocc nocc (t_amp e1)
      (spec_t_new nso nocc (fprime e1) (gmo e) (eps e1) (t_amp e)).
Proof.
  intros H.
  destruct (omp2_iteration_total nso nocc hao gao E_nuc expm e) as [e1 He1].
  { intros a b i j Ha Hb Hi Hj. rewrite <- spec_D_denominator.
    apply H; assumption. }
  exists e1. split; [exact He1|].
  exact (iteration_t_amp nso nocc hao gao E_nuc expm e e1 He1).
Qed.

(** C10.  On the first iteration the previous amplitudes are the zeros of
    [initial_env]: both fprime contractions vanish, and the update returns
    the virtual-virtual-occupied-occupied block of [gmo] divided entry by
    entry by the orbital-energy denominator. *)
Theorem first_iteration_amplitudes (nso nocc : nat) (hao : matrix)
    (gao : tensor4) (E_nuc : Qc) (expm : nat -> matrix -> matrix)
    (C0 : matrix) :
  (forall a b i j,
     (a < nvirt nso nocc)%nat -> (b < nvirt nso nocc)%nat ->
     (i < nocc)%nat -> (j < nocc)%nat ->
     t_amp_denominator nocc
       (orbital_energies nso nocc (initial_env nso nocc hao gao C0)) a b i j <> 0) ->
  exists e1,
    omp2_iteration nso nocc hao gao E_nuc expm (initial_env nso nocc hao gao C0)
      = Finite e1 /\
    forall a b i j,
      (a < nvirt nso nocc)%nat -> (b < nvirt nso nocc)%nat ->
      (i < nocc)%nat -> (j < nocc)%nat ->
      t2 nso nocc (fprime e1) (t_amp (initial_env nso nocc hao gao C0)) a b i j = 0 /\
      t3 nocc (fprime e1) (t_amp (initial_env nso nocc hao gao C0)) a b i j = 0 /\
      t_amp e1 a b i j =
        gmo (initial_env nso nocc hao gao C0) (nocc + a)%nat (nocc + b)%nat i j
        / t_amp_denominator nocc (eps e1) a b i j.
Proof.
  intros H.
  destruct (omp2_iteration_total nso nocc hao gao E_nuc expm _ H) as [e1 He1].
  exists e1. split; [exact He1|].
  intros a b i j Ha Hb Hi Hj.
  assert (Z2 : forall a' b' i' j',
             t2 nso nocc (fprime e1) zeros4 a' b' i' j' = 0).
  { intros. unfold t2. apply sum_lt_zero. intros c _. unfold zeros4. ring. }
  assert (Z3 : forall a' b' i' j',
             t3 nocc (fprime e1) zeros4 a' b' i' j' = 0).
  { intros. unfold t3. apply sum_lt_zero. intros k _. unfold zeros4. ring. }
  simpl t_amp at 1 2. split; [apply Z2|]. split; [apply Z3|].
  apply omp2_iteration_inv in He1. destruct He1 as (He1 & _).
  unfold update_t_amp in He1. apply divide4_finite in He1.
  destruct He1 as [_ He1]. rewrite He1 by assumption.
  unfold t_amp_numerator. simpl t_amp. rewrite !Z2, !Z3.
  unfold t1, Qcdiv. ring.
Qed.

(** C8.  When the orbital gradient (F - F.T)[v, o] of an iteration is zero,
    the rotation generator [X] is the zero matrix, the rotation [U] is the
    identity and the coefficients are left as they were, for a matrix
    exponential routine that maps the zero matrix to the identity. *)
Theorem zero_gradient_no_rotation (nso nocc : nat) (hao : matrix)
    (gao : tensor4) (E_nuc E_conv : Qc) (expm : nat -> matrix -> matrix)
    (C0 : matrix) (e e1 : env) :
  (forall A, eq_on2 nso nso A zeros2 -> eq_on2 nso nso (expm nso A) identity) ->
  enters nso nocc hao gao E_nuc E_conv expm C0 e ->
  omp2_iteration nso nocc hao gao E_nuc expm e = Finite e1 ->
  eq_on2 (nvirt nso nocc) nocc (gradient nocc (F e1)) zeros2 ->
  eq_on2 nso nso (X e1) zeros2 /\
  eq_on2 nso nso (U e1) identity /\
  eq_on2 nso nso (C e1) (C e).
Proof.
  intros Hexpm He Hit HG.
  destruct (entered_untouched nso nocc hao gao E_nuc E_conv expm C0 e He)
    as (_ & _ & HX & _).
  apply omp2_iteration_inv in Hit.
  destruct Hit as (_ & HX1 & _ & _ & _ & _ & _ & _ & _ & _ & _ & HU & HC & _).
  apply update_X_inv in HX1. destruct HX1 as (Y & HY & HX1).
  apply divide2_finite in HY. destruct HY as [_ HY].
  assert (X0 : eq_on2 nso nso (X e1) zeros2).
  { intros p q Hp Hq. rewrite HX1, store2_in by assumption.
    unfold set_vo, zeros2.
    destruct ((nocc <=? p)%nat && (q <? nocc)%nat) eqn:Hvo.
    - apply andb_true_iff in Hvo. destruct Hvo as [Hv Ho].
      apply Nat.leb_le in Hv. apply Nat.ltb_lt in Ho.
      rewrite HY by (unfold nvirt; lia).
      rewrite (HG (p - nocc)%nat q) by (unfold nvirt; lia).
      unfold zeros2, Qcdiv. ring.
    - apply HX; assumption. }
  assert (U0 : eq_on2 nso nso (U e1) identity).
  { intros p q Hp Hq. rewrite HU, store2_in by assumption.
    apply Hexpm; try assumption.
    intros p' q' Hp' Hq'. unfold generator, transpose.
    rewrite (X0 p' q'), (X0 q' p') by assumption. unfold zeros2. ring. }
  split; [exact X0|]. split; [exact U0|].
  intros p q Hp Hq. rewrite HC, store2_in by assumption. unfold dot.
  rewrite (sum_lt_ext nso _ (fun r => C e p r * identity r q)).
  - apply sum_lt_identity_r, Hq.
  - intros r Hr. rewrite (U0 r q) by assumption. reflexivity.
Qed.

(** ** The convergence loop *)


Section Driver.

Variable nso nocc : nat.
Variable hao : matrix.
Variable gao : tensor4.
Variable E_nuc E_conv : Qc.
Variable expm : nat -> matrix -> matrix.

Local Abbreviation loop := (omp2_loop nso nocc hao gao E_nuc E_conv expm).
Local Abbreviation below_tolerance :=
  (fun e : env => Qcabs (E_OMP2 e - E_OMP2_old e) < E_conv).




Lemma omp2_first_iteration (k : nat) (C0 : matrix) :
  is_finite (omp2 nso nocc hao gao E_nuc E_conv expm (S k) C0) = true ->
  exists r e1,
    omp2 nso nocc hao gao E_nuc E_conv expm (S k) C0 = Finite r /\
    In e1 (iterations r) /\
    omp2_iteration nso nocc hao gao E_nuc expm (initial_env nso nocc hao gao C0)
      = Finite e1.
Proof.
  unfold omp2. simpl.
  destruct (omp2_iteration _ _ _ _ _ _ _) as [e1| |]; simpl; try discriminate.
  destruct (converged E_conv e1).
  - intros _. eexists. exists e1. split; [reflexivity|].
    split; [left|]; reflexivity.
  - destruct (loop k (update_old e1)) as [r2| |]; simpl; try discriminate.
    intros _. eexists. exists e1. split; [reflexivity|].
    split; [left|]; reflexivity.
Qed.

End Driver.

Lemma value_of_finite (A : Type) (o : outcome A) (d : A) :
  is_finite o = true -> o = Finite (value_of o d).
Proof. destruct o; simpl; intros H; try discriminate. reflexivity. Qed.

Lemma eq_on2b_spec (n m : nat) (A B : matrix) :
  eq_on2b n m A B = true -> eq_on2 n m A B.
Proof.
  unfold eq_on2b. intros H p q Hp Hq.
  rewrite all_lt_spec in H. specialize (H p Hp).
  rewrite all_lt_spec in H. specialize (H q Hq).
  apply Qc_eqb_eq, H.
Qed.

Lemma expm_linear_zero (n : nat) (A : matrix) :
  eq_on2 n n A zeros2 -> eq_on2 n n (expm_linear n A) identity.
Proof.
  intros H p q Hp Hq. unfold expm_linear. rewrite (H p q) by assumption.
  unfold zeros2. ring.
Qed.




(** C1, as the code has it.  Neither division is guarded: the amplitude
    update and the rotation generator raise no error whatever the
    denominators are, and as soon as no denominator is exactly zero they
    return the quotients, however small the denominators. *)
Theorem division_unguarded (nso nocc : nat) (fprime0 : matrix)
    (gmo0 : tensor4) (eps0 : vector) (t : tensor4) (X0 F0 : matrix) :
  (forall msg, update_t_amp nso nocc fprime0 gmo0 eps0 t <> Raised msg) /\
  (forall msg, update_X nso nocc X0 F0 eps0 <> Raised msg) /\
  ((forall a b i j,
      (a < nvirt nso nocc)%nat -> (b < nvirt nso nocc)%nat ->
      (i < nocc)%nat -> (j < nocc)%nat ->
      t_amp_denominator nocc eps0 a b i j <> 0) ->
   exists t_new,
     update_t_amp nso nocc fprime0 gmo0 eps0 t = Finite t_new /\
     forall a b i j,
       (a < nvirt nso nocc)%nat -> (b < nvirt nso nocc)%nat ->
       (i < nocc)%nat -> (j < nocc)%nat ->
       t_new a b i j =
         t_amp_numerator nso nocc fprime0 gmo0 t a b i j
         / t_amp_denominator nocc eps0 a b i j) /\
  ((forall a i,
      (a < nvirt nso nocc)%nat -> (i < nocc)%nat ->
      X_denominator nocc eps0 a i <> 0) ->
   exists X1,
     update_X nso nocc X0 F0 eps0 = Finite X1 /\
     forall a i,
       (a < nvirt nso nocc)%nat -> (i < nocc)%nat ->
       X1 (nocc + a)%nat i =
         gradient nocc F0 a i / X_denominator nocc eps0 a i).
Proof.
  split; [|split; [|split]].
  - intros msg. unfold update_t_amp, divide4.
    destruct (nonzero4 _ _ _ _ _); discriminate.
  - intros msg. unfold update_X, divide2.
    destruct (nonzero2 _ _ _); discriminate.
  - intros H. apply nonzero4_spec in H.
    unfold update_t_amp, divide4. rewrite H.
    eexists. split; [reflexivity|].
    intros a b i j Ha Hb Hi Hj. apply store4_in; assumption.
  - intros H. apply nonzero2_spec in H.
    unfold update_X, divide2. rewrite H. simpl.
    eexists. split; [reflexivity|].
    intros a i Ha Hi.
    rewrite store2_in by (unfold nvirt in Ha; lia).
    unfold set_vo.
    replace ((nocc <=? nocc + a)%nat && (i <? nocc)%nat) with true.
    + replace (nocc + a - nocc)%nat with a by lia.
      apply store2_in; assumption.
    + symmetry. apply andb_true_iff. split.
      * apply Nat.leb_le. lia.
      * apply Nat.ltb_lt. exact Hi.
Qed.

(** C1, as the claim has it, fails: with the occupied orbital 1 above the
    virtual orbital 2 and denominators of magnitude 3e-9 and 1e-9, below a
    tolerance of 1e-6, the amplitude update and the rotation generator
    return the finite quotients -5e8 and -2e9; and the loop, run on a core
    Hamiltonian with these orbital energies, goes through its iteration and
    ends as usual.  Nothing is raised. *)
Lemma unguarded_division_counterexample :
  eps_near 2%nat < eps_near 1%nat /\
  Qcabs (t_amp_denominator 2 eps_near 0%nat 1%nat 0%nat 1%nat) < tolerance /\
  entry4_of (update_t_amp 4 2 zeros2 gao4 eps_near zeros4) 0 1 0 1
    = Some (-500000000 # 1)%Q /\
  Qcabs (X_denominator 2 eps_near 0%nat 0%nat) < tolerance /\
  entry2_of (update_X 4 2 zeros2 F_skew eps_near) 2 0
    = Some (-2000000000 # 1)%Q /\
  eps_of 4 (omp2 4 2 hao_near zeros4 0 E_conv_default expm_linear 1 identity)
    = Some ((1 :: 2 :: (1000000001 # 1000000000)
               :: (1000000001 # 500000000) :: nil)%Q :: nil) /\
  exit_of (omp2 4 2 hao_near zeros4 0 E_conv_default expm_linear 1 identity)
    = Some Exhausted.
Proof.
  split; [|split; [|split; [|split; [|split; [|split]]]]];
    vm_compute; reflexivity.
Qed.

Lemma t_amp_antisymmetric_witness :
  exists r e1,
    omp2 4 2 hao4 gao4 0 E_conv_default expm_linear 1 identity = Finite r /\
    In e1 (iterations r) /\
    antisymmetric4 (nvirt 4 2) 2 (t_amp e1).
Proof.
  assert (Hf : is_finite
            (omp2 4 2 hao4 gao4 0 E_conv_default expm_linear 1 identity) = true)
    by (vm_compute; reflexivity).
  destruct (omp2_first_iteration 4 2 hao4 gao4 0 E_conv_default expm_linear
              0 identity Hf) as (r & e1 & Hr & Hin & _).
  exists r, e1. split; [exact Hr|]. split; [exact Hin|].
  apply (t_amp_antisymmetric 4 2 hao4 gao4 0 E_conv_default expm_linear
           1 identity r e1); try assumption.
  apply antisymmetric4b_spec. vm_compute. reflexivity.
Defined.

Lemma tpdm_assembly_witness :
  exists r e1,
    omp2 4 2 hao4 gao4 0 E_conv_default expm_linear 1 identity = Finite r /\
    In e1 (iterations r) /\
    eq_on4 4 4 4 4 (tpdm e1)
      (spec_tpdm 2 (t_amp e1) (opdm_corr e1) (opdm_ref e1)).
Proof.
  assert (Hf : is_finite
            (omp2 4 2 hao4 gao4 0 E_conv_default expm_linear 1 identity) = true)
    by (vm_compute; reflexivity).
  destruct (omp2_first_iteration 4 2 hao4 gao4 0 E_conv_default expm_linear
              0 identity Hf) as (r & e1 & Hr & Hin & _).
  exists r, e1. split; [exact Hr|]. split; [exact Hin|].
  exact (tpdm_assembly 4 2 hao4 gao4 0 E_conv_default expm_linear
           1 identity r e1 Hr Hin).
Defined.

Lemma opdm_symmetric_witness :
  exists r e1,
    omp2 4 2 hao4 gao4 0 E_conv_default expm_linear 1 identity = Finite r /\
    In e1 (iterations r) /\
    antisymmetric4 (nvirt 4 2) 2 (t_amp e1) /\
    symmetric2 4 (opdm e1).
Proof.
  assert (Hf : is_finite
            (omp2 4 2 hao4 gao4 0 E_conv_default expm_linear 1 identity) = true)
    by (vm_compute; reflexivity).
  destruct (omp2_first_iteration 4 2 hao4 gao4 0 E_conv_default expm_linear
              0 identity Hf) as (r & e1 & Hr & Hin & Hit).
  assert (Hg : antisymmetric4 4 4 gao4)
    by (apply antisymmetric4b_spec; vm_compute; reflexivity).
  assert (Ht : antisymmetric4 (nvirt 4 2) 2 (t_amp e1)).
  { apply (iteration_t_amp_antisym 4 2 hao4 gao4 0 expm_linear
             (initial_env 4 2 hao4 gao4 identity) e1); try exact Hit.
    - apply store4_ao_to_mo_tei_antisym, Hg.
    - apply zeros4_antisym. }
  exists r, e1. split; [exact Hr|]. split; [exact Hin|]. split; [exact Ht|].
  exact (opdm_symmetric 4 2 hao4 gao4 0 E_conv_default expm_linear
           1 identity r e1 Hr Hin Ht).
Defined.

Lemma t_amp_update_formula_witness :
  exists e1,
    omp2_iteration 4 2 hao4 gao4 0 expm_linear env4 = Finite e1 /\
    eq_on4 (nvirt 4 2) (nvirt 4 2) 2 2 (t_amp e1)
      (spec_t_new 4 2 (fprime e1) (gmo env4) (eps e1) (t_amp env4)).
Proof.
  apply (t_amp_update_formula 4 2 hao4 gao4 0 expm_linear env4).
  apply (proj1 (nonzero4_spec _ _ _ _ _)). vm_compute. reflexivity.
Defined.

Lemma first_iteration_amplitudes_witness :
  exists e1,
    omp2_iteration 4 2 hao4 gao4 0 expm_linear (initial_env 4 2 hao4 gao4 identity)
      = Finite e1 /\
    forall a b i j,
      (a < nvirt 4 2)%nat -> (b < nvirt 4 2)%nat -> (i < 2)%nat -> (j < 2)%nat ->
      t2 4 2 (fprime e1) (t_amp (initial_env 4 2 hao4 gao4 identity)) a b i j = 0 /\
      t3 2 (fprime e1) (t_amp (initial_env 4 2 hao4 gao4 identity)) a b i j = 0 /\
      t_amp e1 a b i j =
        gmo (initial_env 4 2 hao4 gao4 identity) (2 + a)%nat (2 + b)%nat i j
        / t_amp_denominator 2 (eps e1) a b i j.
Proof.
  apply (first_iteration_amplitudes 4 2 hao4 gao4 0 expm_linear identity).
  apply (proj1 (nonzero4_spec _ _ _ _ _)). vm_compute. reflexivity.
Defined.

Lemma zero_gradient_no_rotation_witness :
  exists e1,
    omp2_iteration 4 2 hao_diag zeros4 0 expm_linear
      (initial_env 4 2 hao_diag zeros4 identity) = Finite e1 /\
    eq_on2 4 4 (X e1) zeros2 /\
    eq_on2 4 4 (U e1) identity /\
    eq_on2 4 4 (C e1) identity.
Proof.
  pose (e0 := initial_env 4 2 hao_diag zeros4 identity).
  pose (o := omp2_iteration 4 2 hao_diag zeros4 0 expm_linear e0).
  assert (Hf : is_finite o = true) by (vm_compute; reflexivity).
  assert (Hit : o = Finite (value_of o e0)) by (apply value_of_finite, Hf).
  assert (HG : eq_on2 (nvirt 4 2) 2 (gradient 2 (F (value_of o e0))) zeros2)
    by (apply eq_on2b_spec; vm_compute; reflexivity).
  exists (value_of o e0). split; [exact Hit|].
  exact (zero_gradient_no_rotation 4 2 hao_diag zeros4 0 E_conv_default
           expm_linear identity e0 (value_of o e0)
           (expm_linear_zero 4)
           (enters_first 4 2 hao_diag zeros4 0 E_conv_default expm_linear identity)
           Hit HG).
Defined.

(** ** The integral transforms: identity, symmetry, composition *)

Lemma ao_to_mo_einsum (n : nat) (h C0 : matrix) :
  ao_to_mo n h C0 = einsum_pQ_pP n (einsum_pq_qQ n h C0) C0.
Proof. reflexivity. Qed.

Lemma ao_to_mo_tei_einsum (n : nat) (g : tensor4) (C0 : matrix) :
  ao_to_mo_tei n g C0 =
  einsum_pQRS_pP n (einsum_pqRS_qQ n (einsum_pqrS_rR n (einsum_pqrs_sS n g C0) C0) C0) C0.
Proof. reflexivity. Qed.

(** Two successive contractions of one index with [C0] and then [U0] are
    one contraction with C0.dot(U0). *)
Lemma sum_lt_fuse (n : nat) (g : nat -> Qc) (C0 U0 : matrix) (S : nat) :
  sum_lt n (fun s => sum_lt n (fun s' => g s' * C0 s' s) * U0 s S) =
  sum_lt n (fun s' => g s' * dot n C0 U0 s' S).
Proof.
  unfold dot.
  rewrite (sum_lt_ext n _ (fun s => sum_lt n (fun s' => g s' * C0 s' s * U0 s S)))
    by (intros; apply sum_lt_scal_r).
  rewrite sum_lt_swap. apply sum_lt_ext. intros s' _.
  rewrite sum_lt_scal_l. apply sum_lt_ext. intros s _. ring.
Qed.

(** Contractions of two different indices can be done in either order. *)
Lemma sum_lt_commute (n : nat) (g : nat -> nat -> Qc) (u v : nat -> Qc) :
  sum_lt n (fun i => sum_lt n (fun j => g i j * u j) * v i) =
  sum_lt n (fun j => sum_lt n (fun i => g i j * v i) * u j).
Proof.
  rewrite (sum_lt_ext n _ (fun i => sum_lt n (fun j => g i j * u j * v i)))
    by (intros; apply sum_lt_scal_r).
  rewrite sum_lt_swap. apply sum_lt_ext. intros j _.
  rewrite sum_lt_scal_r. apply sum_lt_ext. intros i _. ring.
Qed.

Section Legs.

Variable n : nat.
Variable C0 U0 : matrix.

Lemma fuse_q (h : matrix) :
  einsum_pq_qQ n (einsum_pq_qQ n h C0) U0 = einsum_pq_qQ n h (dot n C0 U0).
Proof.
  extensionality p. extensionality Q. unfold einsum_pq_qQ.
  apply (sum_lt_fuse n (fun q => h p q)).
Qed.

Lemma fuse_p (h : matrix) :
  einsum_pQ_pP n (einsum_pQ_pP n h C0) U0 = einsum_pQ_pP n h (dot n C0 U0).
Proof.
  extensionality P. extensionality Q. unfold einsum_pQ_pP.
  apply (sum_lt_fuse n (fun p => h p Q)).
Qed.

Lemma commute_q_p (h : matrix) :
  einsum_pq_qQ n (einsum_pQ_pP n h C0) U0 = einsum_pQ_pP n (einsum_pq_qQ n h U0) C0.
Proof.
  extensionality P. extensionality Q. unfold einsum_pq_qQ, einsum_pQ_pP.
  apply (sum_lt_commute n (fun q p => h p q)).
Qed.

Lemma fuse_s (g : tensor4) :
  einsum_pqrs_sS n (einsum_pqrs_sS n g C0) U0 = einsum_pqrs_sS n g (dot n C0 U0).
Proof.
  extensionality p. extensionality q. extensionality r. extensionality S.
  unfold einsum_pqrs_sS. apply (sum_lt_fuse n (fun s => g p q r s)).
Qed.

Lemma fuse_r (g : tensor4) :
  einsum_pqrS_rR n (einsum_pqrS_rR n g C0) U0 = einsum_pqrS_rR n g (dot n C0 U0).
Proof.
  extensionality p. extensionality q. extensionality R. extensionality S.
  unfold einsum_pqrS_rR. apply (sum_lt_fuse n (fun r => g p q r S)).
Qed.

Lemma fuse_q4 (g : tensor4) :
  einsum_pqRS_qQ n (einsum_pqRS_qQ n g C0) U0 = einsum_pqRS_qQ n g (dot n C0 U0).
Proof.
  extensionality p. extensionality Q. extensionality R. extensionality S.
  unfold einsum_pqRS_qQ. apply (sum_lt_fuse n (fun q => g p q R S)).
Qed.

Lemma fuse_p4 (g : tensor4) :
  einsum_pQRS_pP n (einsum_pQRS_pP n g C0) U0 = einsum_pQRS_pP n g (dot n C0 U0).
Proof.
  extensionality P. extensionality Q. extensionality R. extensionality S.
  unfold einsum_pQRS_pP. apply (sum_lt_fuse n (fun p => g p Q R S)).
Qed.

Lemma commute_s_r (g : tensor4) :
  einsum_pqrs_sS n (einsum_pqrS_rR n g C0) U0 = einsum_pqrS_rR n (einsum_pqrs_sS n g U0) C0.
Proof.
  extensionality p. extensionality q. extensionality R. extensionality S.
  unfold einsum_pqrs_sS, einsum_pqrS_rR.
  apply (sum_lt_commute n (fun s r => g p q r s)).
Qed.

Lemma commute_s_q (g : tensor4) :
  einsum_pqrs_sS n (einsum_pqRS_qQ n g C0) U0 = einsum_pqRS_qQ n (einsum_pqrs_sS n g U0) C0.
Proof.
  extensionality p. extensionality Q. extensionality r. extensionality S.
  unfold einsum_pqrs_sS, einsum_pqRS_qQ.
  apply (sum_lt_commute n (fun s q => g p q r s)).
Qed.

Lemma commute_s_p (g : tensor4) :
  einsum_pqrs_sS n (einsum_pQRS_pP n g C0) U0 = einsum_pQRS_pP n (einsum_pqrs_sS n g U0) C0.
Proof.
  extensionality P. extensionality q. extensionality r. extensionality S.
  unfold einsum_pqrs_sS, einsum_pQRS_pP.
  apply (sum_lt_commute n (fun s p => g p q r s)).
Qed.

Lemma commute_r_q (g : tensor4) :
  einsum_pqrS_rR n (einsum_pqRS_qQ n g C0) U0 = einsum_pqRS_qQ n (einsum_pqrS_rR n g U0) C0.
Proof.
  extensionality p. extensionality Q. extensionality R. extensionality S.
  unfold einsum_pqrS_rR, einsum_pqRS_qQ.
  apply (sum_lt_commute n (fun r q => g p q r S)).
Qed.

Lemma commute_r_p (g : tensor4) :
  einsum_pqrS_rR n (einsum_pQRS_pP n g C0) U0 = einsum_pQRS_pP n (einsum_pqrS_rR n g U0) C0.
Proof.
  extensionality P. extensionality q. extensionality R. extensionality S.
  unfold einsum_pqrS_rR, einsum_pQRS_pP.
  apply (sum_lt_commute n (fun r p => g p q r S)).
Qed.

Lemma commute_q_p4 (g : tensor4) :
  einsum_pqRS_qQ n (einsum_pQRS_pP n g C0) U0 = einsum_pQRS_pP n (einsum_pqRS_qQ n g U0) C0.
Proof.
  extensionality P. extensionality Q. extensionality R. extensionality S.
  unfold einsum_pqRS_qQ, einsum_pQRS_pP.
  apply (sum_lt_commute n (fun q p => g p q R S)).
Qed.

End Legs.

(** The two legs of [ao_to_mo], taken twice, are the two legs taken once
    with the product of the coefficient matrices. *)
Lemma ao_to_mo_legs_dot (n : nat) (h C0 U0 : matrix) :
  ao_to_mo n (ao_to_mo n h C0) U0 = ao_to_mo n h (dot n C0 U0).
Proof.
  rewrite !ao_to_mo_einsum.
  rewrite commute_q_p, fuse_q, fuse_p. reflexivity.
Qed.

(** The same for the four legs of [ao_to_mo_tei]. *)
Lemma ao_to_mo_tei_legs_dot (n : nat) (g : tensor4) (C0 U0 : matrix) :
  ao_to_mo_tei n (ao_to_mo_tei n g C0) U0 = ao_to_mo_tei n g (dot n C0 U0).
Proof.
  rewrite !ao_to_mo_tei_einsum.
  rewrite commute_s_p, commute_s_q, commute_s_r, fuse_s.
  rewrite commute_r_p, commute_r_q, fuse_r.
  rewrite commute_q_p4, fuse_q4, fuse_p4. reflexivity.
Qed.

(** X3.  Transforming the core Hamiltonian by [C0] and the result by [U0]
    is transforming it once by C0.dot(U0). *)
Theorem ao_to_mo_compose (n : nat) (h C0 U0 : matrix) (P Q : nat) :
  ao_to_mo n (ao_to_mo n h C0) U0 P Q = ao_to_mo n h (dot n C0 U0) P Q.
Proof.
  rewrite ao_to_mo_legs_dot. reflexivity.
Qed.

(** X4.  Transforming the two-electron array by [C0] and the result by [U0]
    is transforming it once by C0.dot(U0): the four contractions commute
    with one another and fuse leg by leg. *)
Theorem ao_to_mo_tei_compose (n : nat) (g : tensor4) (C0 U0 : matrix)
    (P Q R S : nat) :
  ao_to_mo_tei n (ao_to_mo_tei n g C0) U0 P Q R S =
  ao_to_mo_tei n g (dot n C0 U0) P Q R S.
Proof.
  rewrite ao_to_mo_tei_legs_dot. reflexivity.
Qed.

(** X1.  With identity coefficients both transforms return their input. *)
Theorem transform_by_identity (n : nat) (h : matrix) (g : tensor4) :
  eq_on2 n n (ao_to_mo n h identity) h /\
  eq_on4 n n n n (ao_to_mo_tei n g identity) g.
Proof.
  split.
  - intros P Q HP HQ. unfold ao_to_mo.
    rewrite (sum_lt_ext n _ (fun p => h p Q * identity p P)).
    + apply (sum_lt_identity_r n (fun p => h p Q) P HP).
    + intros p _. f_equal. apply (sum_lt_identity_r n (fun q => h p q) Q HQ).
  - intros P Q R S HP HQ HR HS. unfold ao_to_mo_tei.
    rewrite (sum_lt_ext n _ (fun p => g p Q R S * identity p P)).
    + apply (sum_lt_identity_r n (fun p => g p Q R S) P HP).
    + intros p _. f_equal.
      rewrite (sum_lt_ext n _ (fun q => g p q R S * identity q Q)).
      * apply (sum_lt_identity_r n (fun q => g p q R S) Q HQ).
      * intros q _. f_equal.
        rewrite (sum_lt_ext n _ (fun r => g p q r S * identity r R)).
        -- apply (sum_lt_identity_r n (fun r => g p q r S) R HR).
        -- intros r _. f_equal.
           apply (sum_lt_identity_r n (fun s => g p q r s) S HS).
Qed.

Lemma sum_lt_pair_symmetric (n : nat) (g : nat -> nat -> Qc) (u v : nat -> Qc) :
  (forall i j, (i < n)%nat -> (j < n)%nat -> g i j = g j i) ->
  sum_lt n (fun i => sum_lt n (fun j => g i j * u j) * v i) =
  sum_lt n (fun i => sum_lt n (fun j => g i j * v j) * u i).
Proof.
  intros Hg. rewrite sum_lt_commute. apply sum_lt_ext. intros j Hj.
  f_equal. apply sum_lt_ext. intros i Hi. rewrite (Hg i j Hi Hj). reflexivity.
Qed.

(** X2.  [ao_to_mo] returns a symmetric matrix for a symmetric core
    Hamiltonian, whatever the coefficients. *)
Theorem ao_to_mo_symmetric (n : nat) (h C0 : matrix) :
  symmetric2 n h ->
  forall P Q, ao_to_mo n h C0 P Q = ao_to_mo n h C0 Q P.
Proof.
  intros Hh P Q. unfold ao_to_mo.
  apply (sum_lt_pair_symmetric n h (fun q => C0 q Q) (fun p => C0 p P)).
  exact Hh.
Qed.

(** The transformed two-electron array, as one sum over four indices. *)
Lemma ao_to_mo_tei_expanded (n : nat) (g : tensor4) (C0 : matrix) (P Q R S : nat) :
  ao_to_mo_tei n g C0 P Q R S =
  sum_lt n (fun p => sum_lt n (fun q => sum_lt n (fun r => sum_lt n (fun s =>
    g p q r s * (C0 p P * C0 q Q * C0 r R * C0 s S))))).
Proof.
  unfold ao_to_mo_tei.
  apply sum_lt_ext; intros p _. rewrite sum_lt_scal_r.
  apply sum_lt_ext; intros q _. rewrite !sum_lt_scal_r.
  apply sum_lt_ext; intros r _. rewrite !sum_lt_scal_r.
  apply sum_lt_ext; intros s _. ring.
Qed.

(** A four-fold sum against a pair-symmetric array: the weights of the
    first and of the second index pair can be exchanged. *)
Lemma sum4_pair_symmetric (n : nat) (g : tensor4) (a b c d : nat -> Qc) :
  pair_symmetric n g ->
  sum_lt n (fun p => sum_lt n (fun q => sum_lt n (fun r => sum_lt n (fun s =>
    g p q r s * (a p * b q * c r * d s))))) =
  sum_lt n (fun p => sum_lt n (fun q => sum_lt n (fun r => sum_lt n (fun s =>
    g p q r s * (c p * d q * a r * b s))))).
Proof.
  intros Hg.
  (* bring the sums over r, s in front of the sums over p, q *)
  rewrite (sum_lt_ext n _ (fun p => sum_lt n (fun r => sum_lt n (fun s =>
             sum_lt n (fun q =>
               g p q r s * (a p * b q * c r * d s)))))).
  2:{ intros p _. rewrite sum_lt_swap. apply sum_lt_ext; intros r _.
      apply sum_lt_swap. }
  rewrite sum_lt_swap.
  apply sum_lt_ext; intros r Hr.
  rewrite sum_lt_swap.
  apply sum_lt_ext; intros s Hs.
  apply sum_lt_ext; intros p Hp.
  apply sum_lt_ext; intros q Hq.
  rewrite (Hg r s p q Hr Hs Hp Hq). ring.
Qed.

(** X5.  [ao_to_mo_tei] keeps the symmetry under exchange of the two index
    pairs, g[p,q,r,s] = g[r,s,p,q], whatever the coefficients. *)
Theorem ao_to_mo_tei_pair_symmetric (n : nat) (g : tensor4) (C0 : matrix) :
  pair_symmetric n g ->
  forall P Q R S, ao_to_mo_tei n g C0 P Q R S = ao_to_mo_tei n g C0 R S P Q.
Proof.
  intros Hg P Q R S. rewrite !ao_to_mo_tei_expanded.
  apply (sum4_pair_symmetric n g (fun p => C0 p P) (fun q => C0 q Q)
           (fun r => C0 r R) (fun s => C0 s S) Hg).
Qed.

(** Columns [p] and [q] of a product of two matrices with orthonormal
    columns. *)
Lemma dot_columns (n : nat) (C0 U0 : matrix) (p q : nat) :
  orthonormal n C0 -> orthonormal n U0 -> (p < n)%nat -> (q < n)%nat ->
  sum_lt n (fun r => sum_lt n (fun s => C0 r s * U0 s p) *
                     sum_lt n (fun t => C0 r t * U0 t q)) = identity p q.
Proof.
  intros HC HU Hp Hq.
  (* sum_r (sum_s C r s U s p) (sum_t C r t U t q) *)
  rewrite (sum_lt_ext n _ (fun r => sum_lt n (fun s => sum_lt n (fun t =>
             (C0 r s * C0 r t) * (U0 s p * U0 t q))))).
  2:{ intros r _. rewrite sum_lt_scal_r. apply sum_lt_ext; intros s _.
      rewrite sum_lt_scal_l. apply sum_lt_ext; intros t _. ring. }
  rewrite sum_lt_swap.
  rewrite (sum_lt_ext n _ (fun s => U0 s p * U0 s q)).
  - apply HU; assumption.
  - intros s Hs. rewrite sum_lt_swap.
    rewrite (sum_lt_ext n _ (fun t => (U0 s p * U0 t q) * identity t s)).
    + rewrite (sum_lt_identity_r n (fun t => U0 s p * U0 t q) s Hs). reflexivity.
    + intros t Ht. rewrite <- sum_lt_scal_r, (HC s t Hs Ht).
      unfold identity. rewrite (Nat.eqb_sym t s). ring.
Qed.

(** X6.  C.dot(U) has orthonormal columns when [C] and [U] have. *)
Theorem dot_orthonormal (n : nat) (C0 U0 : matrix) :
  orthonormal n C0 -> orthonormal n U0 -> orthonormal n (dot n C0 U0).
Proof.
  intros HC HU p q Hp Hq. unfold dot. apply dot_columns; assumption.
Qed.

(** ** Spin blocking *)

Lemma spin_index (n p : nat) :
  (p < 2 * n)%nat -> (p mod n < n)%nat /\ (p / n < 2)%nat.
Proof.
  intros Hp. assert (Hn : n <> 0%nat) by lia. split.
  - apply Nat.mod_upper_bound, Hn.
  - apply Nat.Div0.div_lt_upper_bound. lia.
Qed.

Lemma spin_block_tei_entry (n : nat) (I : tensor4) (a b c d : nat) :
  spin_block_tei n I a b c d =
  identity (c / n)%nat (d / n)%nat * (identity (b / n)%nat (a / n)%nat
    * I (d mod n)%nat (c mod n)%nat (b mod n)%nat (a mod n)%nat).
Proof. reflexivity. Qed.

(** X7.  For integrals that are unchanged when their four indices are
    reversed, [spin_block_tei] returns the integral of the spatial indices
    where the first two and the last two spin orbitals have equal spin, and
    zero elsewhere. *)
Theorem spin_block_tei_same_spin (n : nat) (I : tensor4) (a b c d : nat) :
  reversal_symmetric n I ->
  (a < 2 * n)%nat -> (b < 2 * n)%nat -> (c < 2 * n)%nat -> (d < 2 * n)%nat ->
  spin_block_tei n I a b c d =
  if Nat.eqb (a / n) (b / n) && Nat.eqb (c / n) (d / n)
  then I (a mod n)%nat (b mod n)%nat (c mod n)%nat (d mod n)%nat
  else 0.
Proof.
  intros HI Ha Hb Hc Hd. rewrite spin_block_tei_entry. unfold identity.
  rewrite (Nat.eqb_sym (b / n) (a / n)).
  rewrite (HI (a mod n) (b mod n) (c mod n) (d mod n))%nat
    by (apply spin_index; assumption).
  destruct (Nat.eqb (a / n) (b / n)), (Nat.eqb (c / n) (d / n)); simpl; ring.
Qed.

(** X8.  The array [gao] built from the spin-blocked integrals changes sign
    under exchange of its first two and of its last two indices, when the
    integrals are symmetric under exchange of their two index pairs. *)
Theorem build_gao_antisymmetric (n : nat) (I : tensor4) :
  pair_symmetric n I ->
  antisymmetric4 (2 * n) (2 * n) (build_gao (spin_block_tei n I)).
Proof.
  intros HI p q r s Hp Hq Hr Hs. unfold build_gao. split; [|ring].
  rewrite !spin_block_tei_entry. unfold identity.
  rewrite (HI (s mod n) (q mod n) (r mod n) (p mod n))%nat
    by (apply spin_index; assumption).
  rewrite (HI (r mod n) (q mod n) (s mod n) (p mod n))%nat
    by (apply spin_index; assumption).
  rewrite (Nat.eqb_sym (r / n) (p / n)), (Nat.eqb_sym (s / n) (p / n)).
  rewrite (Nat.eqb_sym (s / n) (q / n)), (Nat.eqb_sym (r / n) (q / n)).
  destruct (Nat.eqb (p / n) (r / n)), (Nat.eqb (q / n) (s / n)),
           (Nat.eqb (p / n) (s / n)), (Nat.eqb (q / n) (r / n)); ring.
Qed.

(** X9.  [gao] is symmetric under exchange of its two index pairs when the
    integrals are symmetric under that exchange and under reversal of
    their indices. *)
Theorem build_gao_pair_symmetric (n : nat) (I : tensor4) :
  pair_symmetric n I -> reversal_symmetric n I ->
  pair_symmetric (2 * n) (build_gao (spin_block_tei n I)).
Proof.
  intros HP HR p q r s Hp Hq Hr Hs. unfold build_gao.
  rewrite !spin_block_tei_entry. unfold identity.
  rewrite (HR (q mod n) (s mod n) (p mod n) (r mod n))%nat
    by (apply spin_index; assumption).
  rewrite (HP (r mod n) (p mod n) (s mod n) (q mod n))%nat
    by (apply spin_index; assumption).
  rewrite (HR (p mod n) (s mod n) (q mod n) (r mod n))%nat
    by (apply spin_index; assumption).
  rewrite (Nat.eqb_sym (s / n) (q / n)), (Nat.eqb_sym (p / n) (r / n)).
  destruct (Nat.eqb (q / n) (s / n)), (Nat.eqb (r / n) (p / n)),
           (Nat.eqb (q / n) (r / n)), (Nat.eqb (s / n) (p / n)); ring.
Qed.

Lemma spin_up (n p : nat) :
  (p < n)%nat -> (p / n = 0 /\ p mod n = p)%nat.
Proof. intros Hp. split; [apply Nat.div_small | apply Nat.mod_small]; exact Hp. Qed.

Lemma spin_down (n p : nat) :
  (p < n)%nat -> ((n + p) / n = 1 /\ (n + p) mod n = p)%nat.
Proof.
  intros Hp. assert (Hn : n <> 0%nat) by lia.
  replace (n + p)%nat with (p + 1 * n)%nat by lia. split.
  - rewrite Nat.div_add by exact Hn. rewrite Nat.div_small by exact Hp. reflexivity.
  - rewrite Nat.Div0.mod_add. apply Nat.mod_small, Hp.
Qed.

(** X10.  hao = np.kron(np.eye(2), h) holds [h] in its two diagonal blocks
    and zero in the two blocks between different spins, and is symmetric
    when [h] is. *)
Theorem kron_eye2_blocks (n : nat) (h : matrix) :
  (forall p q, (p < n)%nat -> (q < n)%nat ->
     kron_eye2 n h p q = h p q /\
     kron_eye2 n h (n + p)%nat (n + q)%nat = h p q /\
     kron_eye2 n h p (n + q)%nat = 0 /\
     kron_eye2 n h (n + p)%nat q = 0) /\
  (symmetric2 n h -> symmetric2 (2 * n) (kron_eye2 n h)).
Proof.
  split.
  - intros p q Hp Hq. unfold kron_eye2, identity.
    destruct (spin_up n p Hp) as [-> ->]. destruct (spin_up n q Hq) as [-> ->].
    destruct (spin_down n p Hp) as [-> ->]. destruct (spin_down n q Hq) as [-> ->].
    simpl. repeat split; ring.
  - intros Hh p q Hp Hq. unfold kron_eye2, identity.
    rewrite (Nat.eqb_sym (q / n) (p / n)).
    rewrite (Hh (p mod n) (q mod n))%nat by (apply spin_index; assumption).
    reflexivity.
Qed.

(** ** The memory check *)

Lemma Qc_of_lt_I_size (a : Z) (nmo : nat) :
  Qc_of a 1 < I_size nmo <-> (a * 125000000 < Z.of_nat nmo ^ 4)%Z.
Proof.
  unfold Qclt, I_size, Qc_of, Qcmult, Q2Qc. cbn [this].
  rewrite !Qred_correct.
  unfold Qlt, Qmult, inject_Z. cbn [Qnum Qden]. lia.
Qed.

Lemma pow4_threshold (k : Z) (nmo : nat) :
  (0 < k)%Z ->
  ((k - 1) ^ 4 < Z.of_nat nmo ^ 4 <-> k <= Z.of_nat nmo)%Z.
Proof.
  intros Hk. split.
  - intros H. destruct (Z.lt_ge_cases (Z.of_nat nmo) k) as [Hlt|]; [|assumption].
    exfalso. assert (Z.of_nat nmo ^ 4 <= (k - 1) ^ 4)%Z
      by (apply Z.pow_le_mono_l; lia). lia.
  - intros H. apply Z.pow_lt_mono_l; lia.
Qed.

(** The size of the integral array passes 2 GB at nmo = 126. *)
Lemma I_size_exceeds_default (nmo : nat) :
  numpy_memory_default < I_size nmo <-> (126 <= nmo)%nat.
Proof.
  unfold numpy_memory_default. rewrite Qc_of_lt_I_size. split.
  - intros E.
    change (2 * 125000000)%Z with ((126 - 1) ^ 4 + 5859375)%Z in E.
    assert (H : ((126 - 1) ^ 4 < Z.of_nat nmo ^ 4)%Z) by lia.
    apply pow4_threshold in H; lia.
  - intros H.
    assert (126 ^ 4 <= Z.of_nat nmo ^ 4)%Z by (apply Z.pow_le_mono_l; lia).
    change (126 ^ 4)%Z with 252047376%Z in *. lia.
Qed.

(** X11.  With numpy_memory = 2 the memory check raises exactly when nmo
    is 126 or more. *)
Theorem check_memory_threshold (nmo : nat) :
  (exists msg, check_memory nmo numpy_memory_default = Raised msg) <->
  (126 <= nmo)%nat.
Proof.
  rewrite <- I_size_exceeds_default. unfold check_memory.
  destruct (Qc_ltb numpy_memory_default (I_size nmo)) eqn:E.
  - apply Qc_ltb_lt in E. split; [intros _; exact E|].
    intros _; eexists; reflexivity.
  - split; [intros [msg H]; discriminate|].
    intros H. apply Qc_ltb_lt in H. congruence.
Qed.

Lemma Qc_of_lt_footprint (a : Z) (nmo : nat) :
  Qc_of a 1 < memory_footprint nmo <-> (a * 250000000 < 3 * Z.of_nat nmo ^ 4)%Z.
Proof.
  unfold Qclt, memory_footprint, I_size, Qc_of, Qcmult, Q2Qc. cbn [this].
  rewrite !Qred_correct.
  unfold Qlt, Qmult, inject_Z. cbn [Qnum Qden]. lia.
Qed.

(** X12.  The check compares I_size, not the memory_footprint it reports:
    exactly for nmo from 114 to 125 the reported footprint exceeds
    numpy_memory = 2 and nothing is raised. *)
Theorem check_memory_footprint_gap (nmo : nat) :
  (check_memory nmo numpy_memory_default = Finite tt /\
   numpy_memory_default < memory_footprint nmo) <->
  (114 <= nmo <= 125)%nat.
Proof.
  assert (Hsize := I_size_exceeds_default nmo).
  unfold check_memory. unfold numpy_memory_default at 2.
  rewrite Qc_of_lt_footprint.
  assert (H114 : ((114 - 1) ^ 4 < Z.of_nat nmo ^ 4 <-> 114 <= Z.of_nat nmo)%Z)
    by (apply pow4_threshold; lia).
  change ((114 - 1) ^ 4)%Z with 163047361%Z in H114.
  split.
  - intros [Hfin Hfoot]. split.
    + destruct (Nat.lt_ge_cases nmo 114) as [Hlt|]; [|assumption]. exfalso.
      assert (Z.of_nat nmo ^ 4 <= 113 ^ 4)%Z by (apply Z.pow_le_mono_l; lia).
      change (113 ^ 4)%Z with 163047361%Z in *. lia.
    + destruct (Nat.lt_ge_cases nmo 126) as [Hlt|Hge]; [lia|]. exfalso.
      apply Hsize, Qc_ltb_lt in Hge. rewrite Hge in Hfin. discriminate.
  - intros [Hlo Hhi]. split.
    + destruct (Qc_ltb numpy_memory_default (I_size nmo)) eqn:E; [|reflexivity].
      exfalso. apply Qc_ltb_lt, Hsize in E. lia.
    + assert (114 ^ 4 <= Z.of_nat nmo ^ 4)%Z by (apply Z.pow_le_mono_l; lia).
      change (114 ^ 4)%Z with 168896016%Z in *. lia.
Qed.

(** ** Further invariants of the loop *)

Lemma sum_lt_split (n m : nat) (g : nat -> Qc) :
  sum_lt (n + m) g = sum_lt n g + sum_lt m (fun a => g (n + a)%nat).
Proof.
  induction m as [|m IH].
  - rewrite Nat.add_0_r. simpl. ring.
  - rewrite Nat.add_succ_r. simpl. rewrite IH. ring.
Qed.

Lemma Qc_of_nat_S (n : nat) : Qc_of_nat (S n) = Qc_of_nat n + 1.
Proof.
  apply Qc_is_canon. unfold Qc_of_nat, Qc_of, Qcplus, Q2Qc. cbn [this].
  rewrite !Qred_correct. unfold Qeq, Qplus. cbn [Qnum Qden]. lia.
Qed.

Lemma sum_lt_ones (n : nat) : sum_lt n (fun _ => 1) = Qc_of_nat n.
Proof.
  induction n as [|n IH].
  - apply Qc_is_canon. reflexivity.
  - simpl. rewrite IH, Qc_of_nat_S. reflexivity.
Qed.

Lemma Qc_self_opp (x : Qc) : x = - x -> x = 0.
Proof.
  intros H. assert (E0 : x + x = 0) by (rewrite H at 1; ring).
  assert (E : (1 + 1) * x = 0) by (rewrite <- E0; ring).
  apply Qcmult_integral in E. destruct E as [E|E]; [|exact E].
  exfalso. apply Qc_eqb_neq in E; [exact E|]. reflexivity.
Qed.

Section LoopInvariants.

Variable nso nocc : nat.
Variable hao : matrix.
Variable gao : tensor4.
Variable E_nuc E_conv : Qc.
Variable expm : nat -> matrix -> matrix.

Local Abbreviation nv := (nvirt nso nocc).
Local Abbreviation iteration := (omp2_iteration nso nocc hao gao E_nuc expm).
Local Abbreviation entered := (enters nso nocc hao gao E_nuc E_conv expm).
Local Abbreviation run_of := (omp2 nso nocc hao gao E_nuc E_conv expm).

Lemma run_iteration (MAXITER : nat) (C0 : matrix) (r : run) (e1 : env) :
  run_of MAXITER C0 = Finite r -> In e1 (iterations r) ->
  exists e, entered C0 e /\ iteration e = Finite e1.
Proof.
  intros Hrun Hin.
  exact (omp2_loop_iterations nso nocc hao gao E_nuc E_conv expm
           C0 MAXITER _ r (enters_first _ _ _ _ _ _ _ C0) Hrun e1 Hin).
Qed.

Lemma opdm_corr_traces (t : tensor4) :
  sum_lt nocc (fun j => opdm_corr_oo nso nocc t j j)
  + sum_lt nv (fun a => opdm_corr_vv nso nocc t a a) = 0.
Proof.
  unfold opdm_corr_oo, opdm_corr_vv.
  rewrite <- !sum_lt_scal_l.
  assert (E : sum_lt nv (fun a => sum_lt nocc (fun i => sum_lt nocc (fun j =>
                sum_lt nv (fun c => T4 t i j a c * t a c i j)))) =
              sum_lt nocc (fun j => sum_lt nocc (fun k => sum_lt nv (fun a =>
                sum_lt nv (fun b => T4 t j k a b * t a b j k))))).
  { rewrite sum_lt_swap. apply sum_lt_ext; intros j _.
    apply sum_lt_swap. }
  rewrite E. ring.
Qed.

Lemma sum_lt_split_occ (g : nat -> Qc) :
  (nocc <= nso)%nat ->
  sum_lt nso g = sum_lt nocc g + sum_lt nv (fun a => g (nocc + a)%nat).
Proof.
  intros H. rewrite <- sum_lt_split. f_equal. unfold nvirt. lia.
Qed.

(** X13.  In every iteration the trace of [opdm] is the number of occupied
    spin orbitals: the traces of the two correlation blocks cancel,
    whatever the amplitudes. *)
Theorem opdm_trace (MAXITER : nat) (C0 : matrix) (r : run) (e1 : env) :
  (nocc <= nso)%nat ->
  run_of MAXITER C0 = Finite r -> In e1 (iterations r) ->
  trace nso (opdm e1) = Qc_of_nat nocc.
Proof.
  intros Hle Hrun Hin.
  destruct (run_iteration MAXITER C0 r e1 Hrun Hin) as (e & He & Hit).
  destruct (entered_untouched nso nocc hao gao E_nuc E_conv expm C0 e He)
    as (_ & _ & _ & Hor).
  apply omp2_iteration_inv in Hit.
  destruct Hit as (_ & _ & _ & _ & _ & Hoc1 & Hor1 & Hop1 & _).
  unfold trace.
  rewrite (sum_lt_ext nso _ (fun p =>
             build_opdm_corr nso nocc (opdm_corr e) (t_amp e1) p p
             + set_oo nocc zeros2 identity p p)).
  2:{ intros p Hp. rewrite Hop1, store2_in by assumption. unfold add2.
      rewrite Hoc1, Hor1, Hor, !store2_in by assumption. reflexivity. }
  rewrite sum_lt_plus, !(sum_lt_split_occ _ Hle).
  rewrite (sum_lt_ext nocc _ (fun j => opdm_corr_oo nso nocc (t_amp e1) j j)).
  2:{ intros j Hj. unfold build_opdm_corr, set_oo.
      apply Nat.ltb_lt in Hj. rewrite Hj. reflexivity. }
  rewrite (sum_lt_ext nv _ (fun a => opdm_corr_vv nso nocc (t_amp e1) a a)).
  2:{ intros a Ha. unfold build_opdm_corr, set_oo, set_vv.
      replace (nocc + a <? nocc)%nat with false
        by (symmetry; apply Nat.ltb_ge; lia).
      replace (nocc <=? nocc + a)%nat with true
        by (symmetry; apply Nat.leb_le; lia).
      simpl. replace (nocc + a - nocc)%nat with a by lia. reflexivity. }
  rewrite opdm_corr_traces.
  rewrite (sum_lt_ext nocc _ (fun _ => 1)).
  2:{ intros j Hj. unfold set_oo, identity.
      apply Nat.ltb_lt in Hj. rewrite Hj, Nat.eqb_refl. reflexivity. }
  rewrite (sum_lt_zero nv).
  2:{ intros a Ha. unfold set_oo, zeros2.
      replace (nocc + a <? nocc)%nat with false
        by (symmetry; apply Nat.ltb_ge; lia).
      reflexivity. }
  rewrite sum_lt_ones. ring.
Qed.

Lemma spec_tpdm_corr_antisym (t : tensor4) :
  antisymmetric4 nv nocc t ->
  antisymmetric4 nso nso (spec_tpdm_corr nocc t).
Proof.
  intros Ht p q r s Hp Hq Hr Hs. unfold spec_tpdm_corr.
  destruct (Nat.leb_spec nocc p), (Nat.leb_spec nocc q),
           (Nat.leb_spec nocc r), (Nat.leb_spec nocc s);
    repeat match goal with
    | |- context [(?x <? nocc)%nat] =>
        first [ replace (x <? nocc)%nat with true
                  by (symmetry; apply Nat.ltb_lt; lia)
              | replace (x <? nocc)%nat with false
                  by (symmetry; apply Nat.ltb_ge; lia) ]
    end;
    simpl; try (split; ring).
  - (* p, q virtual; r, s occupied *)
    apply Ht; unfold nvirt; lia.
  - (* p, q occupied; r, s virtual *)
    destruct (Ht (s - nocc) (r - nocc) q p)%nat as [E1 E2];
      try (unfold nvirt; lia).
    split; [exact E2 | exact E1].
Qed.

Lemma spec_tpdm_antisym (t : tensor4) (A B : matrix) :
  antisymmetric4 nv nocc t ->
  antisymmetric4 nso nso (spec_tpdm nocc t A B).
Proof.
  intros Ht p q r s Hp Hq Hr Hs.
  destruct (spec_tpdm_corr_antisym t Ht p q r s Hp Hq Hr Hs) as [E1 E2].
  unfold spec_tpdm, spec_outer4, spec_outer2. split.
  - rewrite E1. ring.
  - rewrite E2. ring.
Qed.

(** X14.  In every iteration [tpdm] changes sign under exchange of its
    first two and of its last two indices, for an antisymmetric [gao]. *)
Theorem tpdm_antisymmetric (MAXITER : nat) (C0 : matrix) (r : run) (e1 : env) :
  antisymmetric4 nso nso gao ->
  run_of MAXITER C0 = Finite r -> In e1 (iterations r) ->
  antisymmetric4 nso nso (tpdm e1).
Proof.
  intros Hg Hrun Hin.
  destruct (run_iteration MAXITER C0 r e1 Hrun Hin) as (e & He & Hit).
  destruct (entered_antisym nso nocc hao gao E_nuc E_conv expm C0 e Hg He)
    as [Hgmo Ht].
  assert (Ht1 := iteration_t_amp_antisym nso nocc hao gao E_nuc expm
                   e e1 Hgmo Ht Hit).
  assert (Heq := iteration_tpdm nso nocc hao gao E_nuc expm e e1
                   (entered_untouched nso nocc hao gao E_nuc E_conv expm C0 e He)
                   Hit).
  intros p q r0 s Hp Hq Hr Hs.
  rewrite !Heq by assumption.
  apply spec_tpdm_antisym; assumption.
Qed.

(** X15.  In every iteration the amplitudes with two equal virtual or two
    equal occupied indices are zero, for an antisymmetric [gao]. *)
Theorem t_amp_diagonal_zero (MAXITER : nat) (C0 : matrix) (r : run) (e1 : env)
    (a b i j : nat) :
  antisymmetric4 nso nso gao ->
  run_of MAXITER C0 = Finite r -> In e1 (iterations r) ->
  (a < nv)%nat -> (b < nv)%nat -> (i < nocc)%nat -> (j < nocc)%nat ->
  t_amp e1 a a i j = 0 /\ t_amp e1 a b i i = 0.
Proof.
  intros Hg Hrun Hin Ha Hb Hi Hj.
  destruct (run_iteration MAXITER C0 r e1 Hrun Hin) as (e & He & Hit).
  destruct (entered_antisym nso nocc hao gao E_nuc E_conv expm C0 e Hg He)
    as [Hgmo Ht].
  assert (Ht1 := iteration_t_amp_antisym nso nocc hao gao E_nuc expm
                   e e1 Hgmo Ht Hit).
  split; apply Qc_self_opp.
  - apply (Ht1 a a i j); assumption.
  - apply (Ht1 a b i i); assumption.
Qed.

(** X16.  In every iteration [X] is zero outside its virtual-occupied
    block. *)
Theorem rotation_generator_block (MAXITER : nat) (C0 : matrix) (r : run)
    (e1 : env) (p q : nat) :
  run_of MAXITER C0 = Finite r -> In e1 (iterations r) ->
  (p < nso)%nat -> (q < nso)%nat ->
  (p < nocc \/ nocc <= q)%nat ->
  X e1 p q = 0.
Proof.
  intros Hrun Hin Hp Hq Hblock.
  destruct (run_iteration MAXITER C0 r e1 Hrun Hin) as (e & He & Hit).
  assert (Hun := iteration_untouched nso nocc hao gao E_nuc expm e e1
                   (entered_untouched nso nocc hao gao E_nuc E_conv expm C0 e He)
                   Hit).
  destruct Hun as (_ & _ & HX1 & _).
  apply HX1; try assumption.
  apply andb_false_iff. destruct Hblock as [H|H].
  - left. apply Nat.leb_gt, H.
  - right. apply Nat.ltb_ge, H.
Qed.


Lemma entered_integrals (C0 : matrix) (e : env) :
  entered C0 e ->
  hmo e = store2 nso nso (ao_to_mo nso hao (C e)) /\
  gmo e = store4 nso nso nso nso (ao_to_mo_tei nso gao (C e)).
Proof.
  intros He. destruct He as [|e e1 He Hit Hconv].
  - split; reflexivity.
  - apply omp2_iteration_inv in Hit.
    destruct Hit as (_ & _ & _ & _ & _ & _ & _ & _ & _ & _ & _ & _ & _ & Hh & Hg & _).
    simpl. split; assumption.
Qed.

(** X18.  In every iteration the Fock matrix [f] and its off-diagonal part
    [fprime] are symmetric, for a symmetric [hao] and a [gao] symmetric
    under exchange of its index pairs. *)
Theorem fock_symmetric (MAXITER : nat) (C0 : matrix) (r : run) (e1 : env) :
  (nocc <= nso)%nat ->
  symmetric2 nso hao -> pair_symmetric nso gao ->
  run_of MAXITER C0 = Finite r -> In e1 (iterations r) ->
  symmetric2 nso (f e1) /\ symmetric2 nso (fprime e1).
Proof.
  intros Hle Hh Hg Hrun Hin.
  destruct (run_iteration MAXITER C0 r e1 Hrun Hin) as (e & He & Hit).
  destruct (entered_integrals C0 e He) as [Hhmo Hgmo].
  apply omp2_iteration_inv in Hit.
  destruct Hit as (_ & _ & Hf & Hfp & _).
  assert (Sf : symmetric2 nso (f e1)).
  { intros p q Hp Hq. rewrite Hf. unfold fock.
    rewrite !store2_in by assumption. unfold build_f. f_equal.
    - rewrite Hhmo, !store2_in by assumption.
      unfold ao_to_mo.
      apply (sum_lt_pair_symmetric nso hao (fun b => C e b q) (fun a => C e a p)).
      exact Hh.
    - apply sum_lt_ext. intros i Hi.
      rewrite Hgmo, !store4_in by (try assumption; lia).
      rewrite !ao_to_mo_tei_expanded.
      apply (sum4_pair_symmetric nso gao (fun a => C e a p) (fun a => C e a i)
               (fun a => C e a q) (fun a => C e a i) Hg). }
  split; [exact Sf|].
  intros p q Hp Hq. rewrite Hfp, !store2_in by assumption.
  unfold build_fprime. rewrite (Nat.eqb_sym q p), (Sf p q Hp Hq). reflexivity.
Qed.

Lemma ao_to_mo_ext (n : nat) (h h' A A' : matrix) :
  eq_on2 n n h h' -> eq_on2 n n A A' ->
  eq_on2 n n (ao_to_mo n h A) (ao_to_mo n h' A').
Proof.
  intros Hh HA P Q HP HQ. unfold ao_to_mo.
  apply sum_lt_ext; intros p Hp. rewrite (HA p P Hp HP). f_equal.
  apply sum_lt_ext; intros q Hq. rewrite (Hh p q Hp Hq), (HA q Q Hq HQ).
  reflexivity.
Qed.

Lemma ao_to_mo_tei_ext (n : nat) (g g' : tensor4) (A A' : matrix) :
  eq_on4 n n n n g g' -> eq_on2 n n A A' ->
  eq_on4 n n n n (ao_to_mo_tei n g A) (ao_to_mo_tei n g' A').
Proof.
  intros Hg HA P Q R S HP HQ HR HS. unfold ao_to_mo_tei.
  apply sum_lt_ext; intros p Hp. rewrite (HA p P Hp HP). f_equal.
  apply sum_lt_ext; intros q Hq. rewrite (HA q Q Hq HQ). f_equal.
  apply sum_lt_ext; intros r0 Hr. rewrite (HA r0 R Hr HR). f_equal.
  apply sum_lt_ext; intros s Hs.
  rewrite (Hg p q r0 s Hp Hq Hr Hs), (HA s S Hs HS). reflexivity.
Qed.

(** X19.  The integrals an iteration recomputes from [hao] and [gao] with
    the rotated coefficients are the integrals it started with,
    transformed by [U]. *)
Theorem retransform_is_rotation (C0 : matrix) (e e1 : env) :
  entered C0 e -> iteration e = Finite e1 ->
  eq_on2 nso nso (hmo e1) (ao_to_mo nso (hmo e) (U e1)) /\
  eq_on4 nso nso nso nso (gmo e1) (ao_to_mo_tei nso (gmo e) (U e1)).
Proof.
  intros He Hit.
  destruct (entered_integrals C0 e He) as [Hhmo Hgmo].
  apply omp2_iteration_inv in Hit.
  destruct Hit as (_ & _ & _ & _ & _ & _ & _ & _ & _ & _ & _ & _ & HC & Hh & Hg & _).
  assert (EC : eq_on2 nso nso (C e1) (dot nso (C e) (U e1))).
  { intros p q Hp Hq. rewrite HC. apply store2_in; assumption. }
  split.
  - intros P Q HP HQ. rewrite Hh, store2_in by assumption.
    rewrite (ao_to_mo_ext nso hao hao (C e1) (dot nso (C e) (U e1)))
      by (try assumption; intros ? ? ? ?; reflexivity).
    rewrite <- ao_to_mo_legs_dot.
    apply ao_to_mo_ext; try assumption.
    + intros p q Hp Hq. rewrite Hhmo. symmetry. apply store2_in; assumption.
    + intros ? ? ? ?. reflexivity.
  - intros P Q R S HP HQ HR HS. rewrite Hg, store4_in by assumption.
    rewrite (ao_to_mo_tei_ext nso gao gao (C e1) (dot nso (C e) (U e1)))
      by (try assumption; intros ? ? ? ? ? ? ? ?; reflexivity).
    rewrite <- ao_to_mo_tei_legs_dot.
    apply ao_to_mo_tei_ext; try assumption.
    + intros p q r0 s Hp Hq Hr Hs. rewrite Hgmo. symmetry.
      apply store4_in; assumption.
    + intros ? ? ? ?. reflexivity.
Qed.





End LoopInvariants.

(** ** Inputs that meet the hypotheses *)

Lemma pair_symmetricb_spec (n : nat) (I : tensor4) :
  pair_symmetricb n I = true -> pair_symmetric n I.
Proof.
  unfold pair_symmetricb. intros H p q r s Hp Hq Hr Hs.
  rewrite all_lt_spec in H. specialize (H p Hp).
  rewrite all_lt_spec in H. specialize (H q Hq).
  rewrite all_lt_spec in H. specialize (H r Hr).
  rewrite all_lt_spec in H. specialize (H s Hs).
  apply Qc_eqb_eq, H.
Qed.

Lemma reversal_symmetricb_spec (n : nat) (I : tensor4) :
  reversal_symmetricb n I = true -> reversal_symmetric n I.
Proof.
  unfold reversal_symmetricb. intros H p q r s Hp Hq Hr Hs.
  rewrite all_lt_spec in H. specialize (H p Hp).
  rewrite all_lt_spec in H. specialize (H q Hq).
  rewrite all_lt_spec in H. specialize (H r Hr).
  rewrite all_lt_spec in H. specialize (H s Hs).
  apply Qc_eqb_eq, H.
Qed.

Lemma symmetric2b_spec (n : nat) (A : matrix) :
  symmetric2b n A = true -> symmetric2 n A.
Proof.
  unfold symmetric2b. intros H p q Hp Hq.
  rewrite all_lt_spec in H. specialize (H p Hp).
  rewrite all_lt_spec in H. specialize (H q Hq).
  apply Qc_eqb_eq, H.
Qed.

Lemma orthonormalb_spec (n : nat) (A : matrix) :
  orthonormalb n A = true -> orthonormal n A.
Proof.
  unfold orthonormalb. intros H p q Hp Hq.
  rewrite all_lt_spec in H. specialize (H p Hp).
  rewrite all_lt_spec in H. specialize (H q Hq).
  apply Qc_eqb_eq, H.
Qed.


Lemma run4_first_iteration :
  exists r e1,
    omp2 4 2 hao4 gao4 0 E_conv_default expm_linear 1 identity = Finite r /\
    In e1 (iterations r) /\
    omp2_iteration 4 2 hao4 gao4 0 expm_linear (initial_env 4 2 hao4 gao4 identity)
      = Finite e1.
Proof.
  apply omp2_first_iteration. vm_compute. reflexivity.
Qed.

Lemma gao4_antisymmetric : antisymmetric4 4 4 gao4.
Proof. apply antisymmetric4b_spec. vm_compute. reflexivity. Qed.

Lemma ao_to_mo_symmetric_witness :
  symmetric2 2 h2 /\
  forall P Q, ao_to_mo 2 h2 rotation_3_4_5 P Q = ao_to_mo 2 h2 rotation_3_4_5 Q P.
Proof.
  assert (H : symmetric2 2 h2) by (apply symmetric2b_spec; vm_compute; reflexivity).
  split; [exact H | exact (ao_to_mo_symmetric 2 h2 rotation_3_4_5 H)].
Defined.

Lemma ao_to_mo_tei_pair_symmetric_witness :
  pair_symmetric 2 eri2 /\
  forall P Q R S,
    ao_to_mo_tei 2 eri2 rotation_3_4_5 P Q R S =
    ao_to_mo_tei 2 eri2 rotation_3_4_5 R S P Q.
Proof.
  assert (H : pair_symmetric 2 eri2)
    by (apply pair_symmetricb_spec; vm_compute; reflexivity).
  split; [exact H | exact (ao_to_mo_tei_pair_symmetric 2 eri2 rotation_3_4_5 H)].
Defined.

Lemma dot_orthonormal_witness :
  orthonormal 2 rotation_3_4_5 /\ orthonormal 2 rotation_5_12_13 /\
  orthonormal 2 (dot 2 rotation_3_4_5 rotation_5_12_13).
Proof.
  assert (H1 : orthonormal 2 rotation_3_4_5)
    by (apply orthonormalb_spec; vm_compute; reflexivity).
  assert (H2 : orthonormal 2 rotation_5_12_13)
    by (apply orthonormalb_spec; vm_compute; reflexivity).
  split; [exact H1|]. split; [exact H2|].
  exact (dot_orthonormal 2 rotation_3_4_5 rotation_5_12_13 H1 H2).
Defined.

Lemma spin_block_tei_same_spin_witness :
  reversal_symmetric 2 eri2 /\
  spin_block_tei 2 eri2 0%nat 1%nat 2%nat 3%nat =
  if Nat.eqb (0 / 2) (1 / 2) && Nat.eqb (2 / 2) (3 / 2)
  then eri2 (0 mod 2)%nat (1 mod 2)%nat (2 mod 2)%nat (3 mod 2)%nat
  else 0.
Proof.
  assert (H : reversal_symmetric 2 eri2)
    by (apply reversal_symmetricb_spec; vm_compute; reflexivity).
  split; [exact H|].
  apply (spin_block_tei_same_spin 2 eri2 0 1 2 3 H); lia.
Defined.

Lemma build_gao_antisymmetric_witness :
  pair_symmetric 2 eri2 /\
  antisymmetric4 (2 * 2) (2 * 2) (build_gao (spin_block_tei 2 eri2)).
Proof.
  assert (H : pair_symmetric 2 eri2)
    by (apply pair_symmetricb_spec; vm_compute; reflexivity).
  split; [exact H | exact (build_gao_antisymmetric 2 eri2 H)].
Defined.

Lemma build_gao_pair_symmetric_witness :
  pair_symmetric 2 eri2 /\ reversal_symmetric 2 eri2 /\
  pair_symmetric (2 * 2) (build_gao (spin_block_tei 2 eri2)).
Proof.
  assert (H1 : pair_symmetric 2 eri2)
    by (apply pair_symmetricb_spec; vm_compute; reflexivity).
  assert (H2 : reversal_symmetric 2 eri2)
    by (apply reversal_symmetricb_spec; vm_compute; reflexivity).
  split; [exact H1|]. split; [exact H2|].
  exact (build_gao_pair_symmetric 2 eri2 H1 H2).
Defined.

Lemma opdm_trace_witness :
  exists r e1,
    omp2 4 2 hao4 gao4 0 E_conv_default expm_linear 1 identity = Finite r /\
    In e1 (iterations r) /\
    trace 4 (opdm e1) = Qc_of_nat 2.
Proof.
  destruct run4_first_iteration as (r & e1 & Hr & Hin & _).
  exists r, e1. split; [exact Hr|]. split; [exact Hin|].
  apply (opdm_trace 4 2 hao4 gao4 0 E_conv_default expm_linear 1 identity r e1);
    try assumption. lia.
Defined.

Lemma tpdm_antisymmetric_witness :
  exists r e1,
    omp2 4 2 hao4 gao4 0 E_conv_default expm_linear 1 identity = Finite r /\
    In e1 (iterations r) /\
    antisymmetric4 4 4 (tpdm e1).
Proof.
  destruct run4_first_iteration as (r & e1 & Hr & Hin & _).
  exists r, e1. split; [exact Hr|]. split; [exact Hin|].
  exact (tpdm_antisymmetric 4 2 hao4 gao4 0 E_conv_default expm_linear
           1 identity r e1 gao4_antisymmetric Hr Hin).
Defined.

Lemma t_amp_diagonal_zero_witness :
  exists r e1,
    omp2 4 2 hao4 gao4 0 E_conv_default expm_linear 1 identity = Finite r /\
    In e1 (iterations r) /\
    t_amp e1 0%nat 0%nat 0%nat 1%nat = 0 /\ t_amp e1 0%nat 1%nat 0%nat 0%nat = 0.
Proof.
  destruct run4_first_iteration as (r & e1 & Hr & Hin & _).
  exists r, e1. split; [exact Hr|]. split; [exact Hin|].
  apply (t_amp_diagonal_zero 4 2 hao4 gao4 0 E_conv_default expm_linear
           1 identity r e1 0 1 0 1 gao4_antisymmetric Hr Hin);
    unfold nvirt; simpl; lia.
Defined.

Lemma rotation_generator_block_witness :
  exists r e1,
    omp2 4 2 hao4 gao4 0 E_conv_default expm_linear 1 identity = Finite r /\
    In e1 (iterations r) /\
    X e1 1%nat 3%nat = 0.
Proof.
  destruct run4_first_iteration as (r & e1 & Hr & Hin & _).
  exists r, e1. split; [exact Hr|]. split; [exact Hin|].
  apply (rotation_generator_block 4 2 hao4 gao4 0 E_conv_default expm_linear
           1 identity r e1 1 3 Hr Hin); lia.
Defined.

Lemma fock_symmetric_witness :
  exists r e1,
    omp2 4 2 hao4 gao4 0 E_conv_default expm_linear 1 identity = Finite r /\
    In e1 (iterations r) /\
    symmetric2 4 (f e1) /\ symmetric2 4 (fprime e1).
Proof.
  destruct run4_first_iteration as (r & e1 & Hr & Hin & _).
  exists r, e1. split; [exact Hr|]. split; [exact Hin|].
  apply (fock_symmetric 4 2 hao4 gao4 0 E_conv_default expm_linear
           1 identity r e1); try assumption.
  - lia.
  - apply symmetric2b_spec. vm_compute. reflexivity.
  - apply pair_symmetricb_spec. vm_compute. reflexivity.
Defined.

Lemma retransform_is_rotation_witness :
  exists e1,
    omp2_iteration 4 2 hao4 gao4 0 expm_linear (initial_env 4 2 hao4 gao4 identity)
      = Finite e1 /\
    eq_on2 4 4 (hmo e1)
      (ao_to_mo 4 (hmo (initial_env 4 2 hao4 gao4 identity)) (U e1)) /\
    eq_on4 4 4 4 4 (gmo e1)
      (ao_to_mo_tei 4 (gmo (initial_env 4 2 hao4 gao4 identity)) (U e1)).
Proof.
  destruct run4_first_iteration as (r & e1 & _ & _ & Hit).
  exists e1. split; [exact Hit|].
  exact (retransform_is_rotation 4 2 hao4 gao4 0 E_conv_default expm_linear
           identity _ e1
           (enters_first 4 2 hao4 gao4 0 E_conv_default expm_linear identity)
           Hit).
Defined.


Local Open Scope R_scope.

(** ** Real matrices: finite sums *)

Lemma Rsum_lt_ext (n : nat) (f g : nat -> R) :
  (forall i, (i < n)%nat -> f i = g i) -> Rsum_lt n f = Rsum_lt n g.
Proof.
  induction n as [|n IH]; intros H; simpl; [reflexivity|].
  rewrite IH by (intros; apply H; lia).
  rewrite (H n) by lia. reflexivity.
Qed.

Lemma Rsum_lt_zero (n : nat) (f : nat -> R) :
  (forall i, (i < n)%nat -> f i = 0) -> Rsum_lt n f = 0.
Proof.
  induction n as [|n IH]; intros H; simpl; [reflexivity|].
  rewrite IH by (intros; apply H; lia).
  rewrite (H n) by lia. ring.
Qed.

Lemma Rsum_lt_plus (n : nat) (f g : nat -> R) :
  Rsum_lt n (fun i => f i + g i) = Rsum_lt n f + Rsum_lt n g.
Proof. induction n as [|n IH]; simpl; [ring | rewrite IH; ring]. Qed.

Lemma Rsum_lt_scal_l (n : nat) (f : nat -> R) (c : R) :
  c * Rsum_lt n f = Rsum_lt n (fun i => c * f i).
Proof. induction n as [|n IH]; simpl; [ring | rewrite <- IH; ring]. Qed.

Lemma Rsum_lt_scal_r (n : nat) (f : nat -> R) (c : R) :
  Rsum_lt n f * c = Rsum_lt n (fun i => f i * c).
Proof. induction n as [|n IH]; simpl; [ring | rewrite <- IH; ring]. Qed.

Lemma Rsum_lt_swap (n m : nat) (f : nat -> nat -> R) :
  Rsum_lt n (fun i => Rsum_lt m (fun j => f i j)) =
  Rsum_lt m (fun j => Rsum_lt n (fun i => f i j)).
Proof.
  induction n as [|n IH]; simpl.
  - symmetry. apply Rsum_lt_zero. reflexivity.
  - rewrite IH, <- Rsum_lt_plus. reflexivity.
Qed.

Lemma Rsum_lt_series (n N : nat) (f : nat -> nat -> R) :
  Rsum_lt n (fun r => sum_f_R0 (f r) N) =
  sum_f_R0 (fun k => Rsum_lt n (fun r => f r k)) N.
Proof.
  induction n as [|n IH]; simpl.
  - symmetry. apply sum_eq_R0. reflexivity.
  - rewrite IH, <- sum_plus. reflexivity.
Qed.

Lemma Rsum_lt_abs (n : nat) (f : nat -> R) :
  Rabs (Rsum_lt n f) <= Rsum_lt n (fun i => Rabs (f i)).
Proof.
  induction n as [|n IH]; simpl.
  - rewrite Rabs_R0. lra.
  - eapply Rle_trans; [apply Rabs_triang|]. lra.
Qed.

Lemma Rsum_lt_le (n : nat) (f g : nat -> R) :
  (forall i, (i < n)%nat -> f i <= g i) -> Rsum_lt n f <= Rsum_lt n g.
Proof.
  induction n as [|n IH]; intros H; simpl; [lra|].
  assert (Rsum_lt n f <= Rsum_lt n g) by (apply IH; intros; apply H; lia).
  assert (f n <= g n) by (apply H; lia). lra.
Qed.

Lemma Rsum_lt_const (n : nat) (c : R) :
  Rsum_lt n (fun _ => c) = INR n * c.
Proof.
  induction n as [|n IH].
  - simpl. ring.
  - rewrite S_INR. simpl. rewrite IH. ring.
Qed.

Lemma Rsum_lt_identity_r (n : nat) (g : nat -> R) (q : nat) :
  (q < n)%nat -> Rsum_lt n (fun r => g r * Ridentity r q) = g q.
Proof.
  induction n as [|n IH]; intros Hq; [lia|]. simpl.
  destruct (Nat.eq_dec q n) as [->|Hne].
  - rewrite Rsum_lt_zero.
    + unfold Ridentity. rewrite Nat.eqb_refl. ring.
    + intros r Hr. unfold Ridentity.
      destruct (Nat.eqb_spec r n) as [E|_]; [lia|ring].
  - rewrite IH by lia. unfold Ridentity.
    destruct (Nat.eqb_spec n q) as [E|_]; [lia|ring].
Qed.

Lemma Rsum_lt_cv (n : nat) (f : nat -> nat -> R) (l : nat -> R) :
  (forall r, (r < n)%nat -> Un_cv (fun N => f N r) (l r)) ->
  Un_cv (fun N => Rsum_lt n (f N)) (Rsum_lt n l).
Proof.
  induction n as [|n IH]; intros H; simpl.
  - intros eps Heps. exists O. intros k _.
    unfold Rdist. rewrite Rminus_diag, Rabs_R0. lra.
  - apply CV_plus.
    + apply IH. intros r Hr. apply H. lia.
    + apply H. lia.
Qed.

Lemma Rsum_lt_identity_l (n : nat) (g : nat -> R) (p : nat) :
  (p < n)%nat -> Rsum_lt n (fun r => Ridentity p r * g r) = g p.
Proof.
  intros Hp. rewrite <- (Rsum_lt_identity_r n g p Hp).
  apply Rsum_lt_ext. intros r _. unfold Ridentity.
  rewrite (Nat.eqb_sym p r). ring.
Qed.

Lemma Rsum_lt_term_le (n : nat) (f : nat -> R) (q : nat) :
  (forall i, (i < n)%nat -> 0 <= f i) -> (q < n)%nat -> f q <= Rsum_lt n f.
Proof.
  induction n as [|n IH]; intros Hf Hq; [lia|]. simpl.
  assert (H0 : 0 <= Rsum_lt n f).
  { rewrite <- (Rsum_lt_zero n (fun _ => 0)) by reflexivity.
    apply Rsum_lt_le. intros i Hi. apply Hf. lia. }
  destruct (Nat.eq_dec q n) as [->|Hne].
  - lra.
  - assert (f q <= Rsum_lt n f) by (apply IH; [intros; apply Hf|]; lia).
    assert (0 <= f n) by (apply Hf; lia). lra.
Qed.

(** ** Real matrices: powers *)

Section Powers.

Variable n : nat.
Variable A : Rmatrix.

Lemma matrix_power_add (p q i j : nat) :
  (j < n)%nat ->
  Rsum_lt n (fun r => matrix_power n A p i r * matrix_power n A q r j) =
  matrix_power n A (p + q) i j.
Proof.
  revert j. induction q as [|q IH]; intros j Hj.
  - rewrite Nat.add_0_r. simpl.
    apply (Rsum_lt_identity_r n (fun r => matrix_power n A p i r) j Hj).
  - rewrite Nat.add_succ_r. simpl. unfold Rdot.
    rewrite (Rsum_lt_ext n _
      (fun r => Rsum_lt n (fun s =>
         matrix_power n A p i r * matrix_power n A q r s * A s j))).
    + rewrite Rsum_lt_swap. apply Rsum_lt_ext. intros s Hs.
      rewrite <- (IH s Hs). rewrite Rsum_lt_scal_r. reflexivity.
    + intros r _. rewrite Rsum_lt_scal_l. apply Rsum_lt_ext.
      intros s _. ring.
Qed.

Lemma matrix_power_1 (i j : nat) :
  (i < n)%nat -> matrix_power n A 1 i j = A i j.
Proof.
  intros Hi. simpl. unfold Rdot.
  apply (Rsum_lt_identity_l n (fun r => A r j) i Hi).
Qed.

Lemma matrix_power_bound (a : R) :
  0 <= a ->
  (forall p q, (p < n)%nat -> (q < n)%nat -> Rabs (A p q) <= a) ->
  forall k i j, (i < n)%nat -> (j < n)%nat ->
    Rabs (matrix_power n A k i j) <= (INR n * a) ^ k.
Proof.
  intros Ha HA k. induction k as [|k IH]; intros i j Hi Hj.
  - simpl. unfold Ridentity. destruct (Nat.eqb i j).
    + rewrite Rabs_R1. lra.
    + rewrite Rabs_R0. lra.
  - simpl. unfold Rdot.
    eapply Rle_trans; [apply Rsum_lt_abs|].
    eapply Rle_trans.
    + apply (Rsum_lt_le n _ (fun _ => (INR n * a) ^ k * a)).
      intros r Hr. rewrite Rabs_mult.
      apply Rmult_le_compat; try apply Rabs_pos.
      * apply IH; assumption.
      * apply HA; assumption.
    + rewrite Rsum_lt_const. right. ring.
Qed.

Hypothesis A_antisym : Rantisymmetric n A.

Lemma matrix_power_transpose (k i j : nat) :
  (i < n)%nat -> (j < n)%nat ->
  matrix_power n A k j i = (-1) ^ k * matrix_power n A k i j.
Proof.
  revert i j. induction k as [|k IH]; intros i j Hi Hj.
  - simpl. unfold Ridentity. rewrite (Nat.eqb_sym j i). ring.
  - change (matrix_power n A (S k) j i)
      with (Rsum_lt n (fun r => matrix_power n A k j r * A r i)).
    replace (S k) with (1 + k)%nat by reflexivity.
    rewrite <- (matrix_power_add 1 k i j Hj).
    rewrite Rsum_lt_scal_l. apply Rsum_lt_ext. intros r Hr.
    rewrite (IH r j Hr Hj), (A_antisym r i Hr Hi).
    rewrite (matrix_power_1 i r Hi).
    replace (1 + k)%nat with (S k) by reflexivity. simpl. ring.
Qed.

End Powers.

(** ** The alternating binomial sum and a squeeze *)

Lemma alternating_binomial (m : nat) :
  sum_f_R0 (fun p => (-1) ^ p * / INR (fact p) * / INR (fact (m - p))) m =
  / INR (fact m) * (-1 + 1) ^ m.
Proof.
  rewrite binomial, scal_sum. apply sum_eq. intros p Hp.
  unfold Binomial.C. rewrite pow1. field.
  repeat split; apply INR_fact_neq_0.
Qed.

Lemma zero_pow_sum (c : nat -> R) (N : nat) :
  sum_f_R0 (fun m => c m * (-1 + 1) ^ m) N = c O.
Proof.
  induction N as [|N IH].
  - simpl. ring.
  - rewrite tech5, IH. replace (-1 + 1) with 0 by ring.
    rewrite pow_i by lia. ring.
Qed.

Lemma cv_squeeze_0 (u v : nat -> R) (l : R) :
  (forall N, (1 <= N)%nat -> Rabs (u N - l) <= v N) ->
  Un_cv v 0 -> Un_cv u l.
Proof.
  intros H Hv eps Heps. destruct (Hv eps Heps) as [N0 HN0].
  exists (S N0). intros N HN. unfold Rdist.
  eapply Rle_lt_trans; [apply H; lia|].
  specialize (HN0 N ltac:(lia)). unfold Rdist in HN0.
  rewrite Rminus_0_r in HN0.
  eapply Rle_lt_trans; [apply Rle_abs|exact HN0].
Qed.

(** ** The exponential of an antisymmetric matrix *)

Section Orthogonality.

Variable n : nat.
Variable A : Rmatrix.
Hypothesis A_antisym : Rantisymmetric n A.

Local Abbreviation a := (Rsum_lt n (fun p => Rsum_lt n (fun q => Rabs (A p q)))).
Local Abbreviation beta := (INR n * a).

Lemma entries_nonneg : 0 <= a.
Proof.
  rewrite <- (Rsum_lt_zero n (fun _ => 0)) by reflexivity.
  apply Rsum_lt_le. intros p _.
  rewrite <- (Rsum_lt_zero n (fun _ => 0)) by reflexivity.
  apply Rsum_lt_le. intros q _. apply Rabs_pos.
Qed.

Lemma entries_bound (p q : nat) :
  (p < n)%nat -> (q < n)%nat -> Rabs (A p q) <= a.
Proof.
  intros Hp Hq.
  eapply Rle_trans.
  - apply (Rsum_lt_term_le n (fun q' => Rabs (A p q')) q); [|exact Hq].
    intros. apply Rabs_pos.
  - apply (Rsum_lt_term_le n
             (fun p' => Rsum_lt n (fun q' => Rabs (A p' q'))) p); [|exact Hp].
    intros p' _.
    rewrite <- (Rsum_lt_zero n (fun _ => 0)) by reflexivity.
    apply Rsum_lt_le. intros q' _. apply Rabs_pos.
Qed.

Lemma beta_nonneg : 0 <= beta.
Proof. apply Rmult_le_pos; [apply pos_INR | apply entries_nonneg]. Qed.

Variable i j : nat.
Hypothesis i_lt : (i < n)%nat.
Hypothesis j_lt : (j < n)%nat.

Local Abbreviation An :=
  (fun (r k : nat) => (-1) ^ k * / INR (fact k) * matrix_power n A k i r).
Local Abbreviation Bn :=
  (fun (r l : nat) => / INR (fact l) * matrix_power n A l r j).

Lemma exp_partial_sum_transpose (N r : nat) :
  (r < n)%nat -> exp_partial_sum n A N r i = sum_f_R0 (An r) N.
Proof.
  intros Hr. unfold exp_partial_sum. apply sum_eq. intros k _.
  rewrite (matrix_power_transpose n A A_antisym k i r i_lt Hr). ring.
Qed.

Lemma An_bound (r k : nat) :
  (r < n)%nat -> Rabs (An r k) <= / INR (fact k) * beta ^ k.
Proof.
  intros Hr. cbv beta. rewrite !Rabs_mult, pow_1_abs, Rmult_1_l.
  rewrite (Rabs_pos_eq (/ INR (fact k)))
    by (left; apply Rinv_0_lt_compat, INR_fact_lt_0).
  apply Rmult_le_compat_l.
  - left. apply Rinv_0_lt_compat, INR_fact_lt_0.
  - apply matrix_power_bound; auto using entries_nonneg, entries_bound.
Qed.

Lemma Bn_bound (r l : nat) :
  (r < n)%nat -> Rabs (Bn r l) <= / INR (fact l) * beta ^ l.
Proof.
  intros Hr. cbv beta. rewrite Rabs_mult.
  rewrite (Rabs_pos_eq (/ INR (fact l)))
    by (left; apply Rinv_0_lt_compat, INR_fact_lt_0).
  apply Rmult_le_compat_l.
  - left. apply Rinv_0_lt_compat, INR_fact_lt_0.
  - apply matrix_power_bound; auto using entries_nonneg, entries_bound.
Qed.

Lemma cauchy_diagonal (m : nat) :
  Rsum_lt n (fun r => sum_f_R0 (fun p => An r p * Bn r (m - p)%nat) m) =
  matrix_power n A m i j * / INR (fact m) * (-1 + 1) ^ m.
Proof.
  rewrite Rsum_lt_series.
  rewrite Rmult_assoc, <- alternating_binomial, scal_sum.
  apply sum_eq. intros p Hp.
  assert (E : matrix_power n A m i j =
              Rsum_lt n (fun r =>
                matrix_power n A p i r * matrix_power n A (m - p) r j)).
  { rewrite (matrix_power_add n A p (m - p)%nat i j j_lt).
    replace (p + (m - p))%nat with m by lia. reflexivity. }
  rewrite E, Rsum_lt_scal_l. apply Rsum_lt_ext. intros r _. ring.
Qed.

Lemma cauchy_main (N : nat) :
  Rsum_lt n (fun r =>
    sum_f_R0 (fun m => sum_f_R0 (fun p => An r p * Bn r (m - p)%nat) m) N) =
  Ridentity i j.
Proof.
  rewrite Rsum_lt_series.
  rewrite (sum_eq _ (fun m =>
             (matrix_power n A m i j * / INR (fact m)) * (-1 + 1) ^ m)).
  - rewrite zero_pow_sum. simpl. rewrite Rinv_1. ring.
  - intros m _. apply cauchy_diagonal.
Qed.

Lemma remainder_bound (N r : nat) :
  (r < n)%nat ->
  Rabs (sum_f_R0 (fun k =>
          sum_f_R0 (fun l => An r (S (l + k)) * Bn r (N - l)%nat) (pred (N - k)%nat))
          (pred N))
  <= Reste_E beta beta N.
Proof.
  intros Hr. unfold Reste_E.
  eapply Rle_trans; [apply Rsum_abs|].
  apply sum_Rle. intros k _.
  eapply Rle_trans; [apply Rsum_abs|].
  apply sum_Rle. intros l _. cbv beta.
  rewrite Rabs_mult.
  apply Rmult_le_compat; try apply Rabs_pos.
  - apply (An_bound r (S (l + k)) Hr).
  - apply (Bn_bound r (N - l)%nat Hr).
Qed.

Lemma product_entry (N : nat) :
  (1 <= N)%nat ->
  Rabs (Rsum_lt n (fun r => exp_partial_sum n A N r i * exp_partial_sum n A N r j)
        - Ridentity i j)
  <= INR n * Reste_E beta beta N.
Proof.
  intros HN.
  rewrite (Rsum_lt_ext n _ (fun r =>
    sum_f_R0 (fun m => sum_f_R0 (fun p => An r p * Bn r (m - p)%nat) m) N
    + sum_f_R0 (fun k =>
        sum_f_R0 (fun l => An r (S (l + k)) * Bn r (N - l)%nat) (pred (N - k)%nat))
        (pred N))).
  - rewrite Rsum_lt_plus, cauchy_main.
    match goal with |- Rabs (?x + ?y - ?x) <= _ =>
      replace (x + y - x) with y by ring end.
    eapply Rle_trans; [apply Rsum_lt_abs|].
    rewrite <- Rsum_lt_const. apply Rsum_lt_le.
    intros r Hr. apply remainder_bound, Hr.
  - intros r Hr. rewrite (exp_partial_sum_transpose N r Hr).
    unfold exp_partial_sum. apply cauchy_finite. lia.
Qed.

Lemma product_entry_cv :
  Un_cv (fun N =>
    Rsum_lt n (fun r => exp_partial_sum n A N r i * exp_partial_sum n A N r j))
    (Ridentity i j).
Proof.
  apply (cv_squeeze_0 _ (fun N => INR n * Reste_E beta beta N)).
  - intros N HN. apply product_entry, HN.
  - replace 0 with (INR n * 0) by ring.
    apply (CV_mult (fun _ => INR n) (Reste_E beta beta)).
    + intros eps Heps. exists O. intros k _.
      unfold Rdist. rewrite Rminus_diag, Rabs_R0. lra.
    + apply Reste_E_cv.
Qed.

End Orthogonality.

Lemma exp_antisymmetric_orthogonal (n : nat) (A U : Rmatrix) :
  Rantisymmetric n A ->
  is_matrix_exponential n A U ->
  orthogonal n U.
Proof.
  intros HA HU i j Hi Hj.
  apply (UL_sequence (fun N =>
    Rsum_lt n (fun r => exp_partial_sum n A N r i * exp_partial_sum n A N r j))).
  - apply (Rsum_lt_cv n
             (fun N r => exp_partial_sum n A N r i * exp_partial_sum n A N r j)
             (fun r => U r i * U r j)).
    intros r Hr.
    apply (CV_mult (fun N => exp_partial_sum n A N r i)
                   (fun N => exp_partial_sum n A N r j));
      apply HU; assumption.
  - apply product_entry_cv; assumption.
Qed.

Lemma matrix_power_zero (n : nat) (A : Rmatrix) :
  (forall p q, (p < n)%nat -> (q < n)%nat -> A p q = 0) ->
  forall k p q, (q < n)%nat -> matrix_power n A (S k) p q = 0.
Proof.
  intros HA k p q Hq. simpl. unfold Rdot.
  apply Rsum_lt_zero. intros r Hr. rewrite (HA r q Hr Hq). ring.
Qed.

Lemma exp_zero (n : nat) (A : Rmatrix) :
  (forall p q, (p < n)%nat -> (q < n)%nat -> A p q = 0) ->
  is_matrix_exponential n A Ridentity.
Proof.
  intros HA p q Hp Hq eps Heps. exists O. intros N _.
  assert (E : exp_partial_sum n A N p q = Ridentity p q).
  { unfold exp_partial_sum. induction N as [|N IH].
    - simpl. rewrite Rinv_1. ring.
    - rewrite tech5, IH, (matrix_power_zero n A HA N p q Hq). ring. }
  unfold Rdist. rewrite E, Rminus_diag, Rabs_R0. exact Heps.
Qed.

(** The series converges in every entry, whatever the matrix. *)
Lemma exp_entry_cv (n : nat) (A : Rmatrix) (p q : nat) :
  (p < n)%nat -> (q < n)%nat ->
  { l : R | Un_cv (fun N => exp_partial_sum n A N p q) l }.
Proof.
  intros Hp Hq. unfold exp_partial_sum.
  apply cv_cauchy_2, cauchy_abs.
  pose (b := INR n * Rsum_lt n (fun p' => Rsum_lt n (fun q' => Rabs (A p' q')))).
  assert (H : { l : R | Un_cv (fun N =>
                  sum_f_R0 (fun k =>
                    Rabs (/ INR (fact k) * matrix_power n A k p q)) N) l }).
  { apply (Rseries_CV_comp _ (fun k => / INR (fact k) * b ^ k)).
    - intros k. split; [apply Rabs_pos|].
      rewrite Rabs_mult.
      rewrite (Rabs_pos_eq (/ INR (fact k)))
        by (left; apply Rinv_0_lt_compat, INR_fact_lt_0).
      apply Rmult_le_compat_l.
      + left. apply Rinv_0_lt_compat, INR_fact_lt_0.
      + apply matrix_power_bound;
          auto using entries_nonneg, entries_bound.
    - exists (exp b). apply (E1_cvg b). }
  exact (CV_Cauchy _ H).
Qed.

Lemma exp_exists (n : nat) (A : Rmatrix) :
  exists U, is_matrix_exponential n A U.
Proof.
  exists (fun p q =>
    match lt_dec p n, lt_dec q n with
    | left Hp, left Hq => proj1_sig (exp_entry_cv n A p q Hp Hq)
    | _, _ => 0
    end).
  intros p q Hp Hq.
  destruct (lt_dec p n) as [Hp'|]; [|contradiction].
  destruct (lt_dec q n) as [Hq'|]; [|contradiction].
  apply (proj2_sig (exp_entry_cv n A p q Hp' Hq')).
Qed.

Lemma to_real_generator_antisym (n : nat) (X0 : matrix) :
  Rantisymmetric n (to_real (generator X0)).
Proof.
  intros p q _ _. unfold to_real, generator, transpose.
  assert (E : (X0 p q - X0 q p = - (X0 q p - X0 p q))%Qc) by ring.
  rewrite E, <- Q2R_opp. apply Qeq_eqR.
  set (y := (X0 q p - X0 p q)%Qc).
  change (Qred (- this y) == - this y)%Q. apply Qred_correct.
Qed.

Lemma to_real_zero (A : matrix) (p q : nat) :
  A p q = 0%Qc -> to_real A p q = 0.
Proof. intros H. unfold to_real. rewrite H. simpl. apply RMicromega.Q2R_0. Qed.

(** C4.  For every generator [X], the matrix X - X.T is antisymmetric, its
    exponential exists, and every rotation operator U that is the
    exponential of X - X.T is orthogonal, U^t . U = identity; for the zero
    generator the exponential is the identity; and the exponential of any
    antisymmetric real matrix is orthogonal. *)
Theorem rotation_orthogonal (n : nat) (X0 : matrix) :
  Rantisymmetric n (to_real (generator X0)) /\
  (exists U0, is_matrix_exponential n (to_real (generator X0)) U0) /\
  (forall U0,
     is_matrix_exponential n (to_real (generator X0)) U0 -> orthogonal n U0) /\
  (eq_on2 n n X0 zeros2 ->
   is_matrix_exponential n (to_real (generator X0)) Ridentity) /\
  (forall A U0,
     Rantisymmetric n A -> is_matrix_exponential n A U0 -> orthogonal n U0).
Proof.
  split; [apply to_real_generator_antisym|].
  split; [apply exp_exists|].
  split; [|split].
  - intros U0 HU.
    exact (exp_antisymmetric_orthogonal n _ U0
             (to_real_generator_antisym n X0) HU).
  - intros HX. apply exp_zero. intros p q Hp Hq.
    apply to_real_zero. unfold generator, transpose.
    rewrite (HX p q Hp Hq), (HX q p Hq Hp). unfold zeros2. ring.
  - intros A U0. apply exp_antisymmetric_orthogonal.
Qed.
